(** * goRedis: the RESP codec, the command dispatcher and the connection loop

    A shallow embedding of [resp.go] (ParseRESP, SerializeRESP) and
    [server.go] (processCommand, the handlers, handleConnection), followed by
    the properties of the specification that were checked against it.

    Conventions of the embedding.
    - A Go [string] or [[]byte] is a [list ascii] (one [ascii] per byte).
    - Go's [int] and [int64] are [Z]; the platform is taken to be 64-bit, and
      the range checks of [strconv] are written out.
    - A [*bufio.Reader] over a connection is the list of bytes that have not
      been read yet; reading past the last byte is [io.EOF].
    - A slice of [*RESPValue] is a [list RESPValue]: a nil slice and an empty
      one are both [[]], and elements are never nil pointers.
    - [make] panics for a negative length and for a slice of more than
      [maxAlloc] bytes, as the runtime of Go does on a 64-bit platform with
      48-bit heap addresses (linux/amd64); an allocation that the runtime
      accepts is taken to succeed.
    - An [error] keeps the structure that [fmt.Errorf] flattens into text; the
      text itself is [Error]. *)

From Stdlib Require Import ZArith List Ascii String Lia Bool.
From stdpp Require Import gmap strings relations.
Import ListNotations.

Set Warnings "-register-all".

(** ** Bytes *)

Abbreviation bytes := (list ascii).

Definition B (s : string) : bytes := list_ascii_of_string s.
Definition code (c : ascii) : Z := Z.of_N (N_of_ascii c).
Definition chr (z : Z) : ascii := ascii_of_N (Z.to_N z).

Definition LF : ascii := "010"%char.
Definition CR : ascii := "013"%char.
Definition CRLF : bytes := [CR; LF].

Definition between (lo hi : Z) (c : ascii) : bool :=
  ((lo <=? code c) && (code c <=? hi))%Z.

(** ** Package strconv (base 10, 64-bit) *)

Module strconv.

Inductive NumErr := ErrSyntax | ErrRange.

Record NumError := mkNumError { Func : bytes; Num : bytes; Err : NumErr }.

Definition maxUint64 : Z := 2 ^ 64 - 1.
Definition cutoff : Z := maxUint64 / 10 + 1.

(** The digit of [ParseUint]'s loop: a letter has a value of 10 or more,
    which base 10 rejects like any other byte. *)
Definition digit_val (c : ascii) : option Z :=
  if between 48 57 c then Some (code c - 48)%Z else None.

Fixpoint ParseUint_loop (n : Z) (s : bytes) : Z + NumErr :=
  match s with
  | [] => inl n
  | c :: s' =>
      match digit_val c with
      | None => inr ErrSyntax
      | Some d =>
          if (n >=? cutoff)%Z then inr ErrRange
          else
            let n1 := (n * 10 + d)%Z in
            if (n1 >? maxUint64)%Z then inr ErrRange
            else ParseUint_loop n1 s'
      end
  end.

Definition ParseUint (s : bytes) : Z + NumErr :=
  match s with
  | [] => inr ErrSyntax
  | _ => ParseUint_loop 0 s
  end.

(** [ParseInt(s, 10, 64)]. *)
Definition ParseInt (s : bytes) : Z + NumErr :=
  match s with
  | [] => inr ErrSyntax
  | c :: s' =>
      let neg := Ascii.eqb c "-" in
      let body := if Ascii.eqb c "+" || neg then s' else s in
      match ParseUint body with
      | inr e => inr e
      | inl un =>
          if negb neg && (un >=? 2 ^ 63)%Z then inr ErrRange
          else if neg && (un >? 2 ^ 63)%Z then inr ErrRange
          else inl (if neg then (- un)%Z else un)
      end
  end.

Definition ParseInt64 (s : bytes) : Z + NumError :=
  match ParseInt s with
  | inl n => inl n
  | inr e => inr (mkNumError (B "ParseInt") s e)
  end.

(** [Atoi]: its fast path for short inputs computes what [ParseInt] does. *)
Definition Atoi (s : bytes) : Z + NumError :=
  match ParseInt s with
  | inl n => inl n
  | inr e => inr (mkNumError (B "Atoi") s e)
  end.

(** The decimal digits of [u], most significant first, in front of [acc].
    [formatBits] fills a fixed buffer from its end in the same way. *)
Fixpoint utoa (fuel : nat) (u : Z) (acc : bytes) : bytes :=
  match fuel with
  | O => acc
  | S fuel' =>
      let acc' := chr (48 + u mod 10) :: acc in
      if (u <? 10)%Z then acc' else utoa fuel' (u / 10) acc'
  end.

(** A 64-bit magnitude has at most 20 decimal digits. *)
Definition FormatInt (i : Z) : bytes :=
  if (i <? 0)%Z then "-"%char :: utoa 20 (- i) [] else utoa 20 i [].

Definition Itoa (i : Z) : bytes := FormatInt i.

End strconv.

(** ** Package strings *)

Module strings.

(** The table [asciiSpace]: tab, line feed, vertical tab, form feed,
    carriage return and space. *)
Definition asciiSpace (c : ascii) : bool :=
  between 9 13 c || (code c =? 32)%Z.

(** The white-space runes above U+007F, by their UTF-8 encodings:
    U+0085 and U+00A0 take two bytes; U+1680, U+2000 to U+200A, U+2028,
    U+2029, U+202F, U+205F and U+3000 take three. *)
Definition space2 (b0 b1 : ascii) : bool :=
  (code b0 =? 194)%Z && ((code b1 =? 133)%Z || (code b1 =? 160)%Z).

Definition space3 (b0 b1 b2 : ascii) : bool :=
  ((code b0 =? 225)%Z && (code b1 =? 154)%Z && (code b2 =? 128)%Z)
  || ((code b0 =? 226)%Z && (code b1 =? 128)%Z
      && (between 128 138 b2 || (code b2 =? 168)%Z || (code b2 =? 169)%Z
          || (code b2 =? 175)%Z))
  || ((code b0 =? 226)%Z && (code b1 =? 129)%Z && (code b2 =? 159)%Z)
  || ((code b0 =? 227)%Z && (code b1 =? 128)%Z && (code b2 =? 128)%Z).

(** [TrimLeftFunc(s, unicode.IsSpace)]: drop white-space runes from the
    front. A byte sequence that is not one of the encodings above decodes
    to a rune that is not white space. *)
Fixpoint TrimLeftSpace (s : bytes) : bytes :=
  match s with
  | [] => []
  | b0 :: s0 =>
      if asciiSpace b0 then TrimLeftSpace s0
      else
        match s0 with
        | [] => s
        | b1 :: s1 =>
            if space2 b0 b1 then TrimLeftSpace s1
            else
              match s1 with
              | [] => s
              | b2 :: s2 => if space3 b0 b1 b2 then TrimLeftSpace s2 else s
              end
        end
  end.

(** The same from the back, on the reversed string: [r] lists the bytes of
    the string last byte first. *)
Fixpoint dropSpaceRev (r : bytes) : bytes :=
  match r with
  | [] => []
  | b0 :: r0 =>
      if asciiSpace b0 then dropSpaceRev r0
      else
        match r0 with
        | [] => r
        | b1 :: r1 =>
            if space2 b1 b0 then dropSpaceRev r1
            else
              match r1 with
              | [] => r
              | b2 :: r2 => if space3 b2 b1 b0 then dropSpaceRev r2 else r
              end
        end
  end.

Definition TrimRightSpace (s : bytes) : bytes := rev (dropSpaceRev (rev s)).

Definition TrimSpace (s : bytes) : bytes := TrimRightSpace (TrimLeftSpace s).

Definition isASCII (c : ascii) : bool := (code c <? 128)%Z.

Definition upperASCII (c : ascii) : ascii :=
  if between 97 122 c then chr (code c - 32) else c.

End strings.

(** ** Packages bufio and io *)

Module bufio.

(** [ReadString(delim)]: the bytes up to and including the first [delim],
    and what is left of the stream; [None] is [io.EOF], which leaves
    nothing unread. *)
Fixpoint ReadString (delim : ascii) (rd : bytes) : option (bytes * bytes) :=
  match rd with
  | [] => None
  | c :: rd' =>
      if Ascii.eqb c delim then Some ([c], rd')
      else
        match ReadString delim rd' with
        | Some (line, rest) => Some (c :: line, rest)
        | None => None
        end
  end.

End bufio.

Module io.

Inductive ioError := EOF | ErrUnexpectedEOF.

(** [ReadFull] into a buffer of [n] bytes: a short stream is drained, and
    the error tells whether anything was read at all. *)
Definition ReadFull (rd : bytes) (n : Z) : (bytes * bytes) + ioError :=
  if (n <=? Z.of_nat (length rd))%Z
  then inl (firstn (Z.to_nat n) rd, skipn (Z.to_nat n) rd)
  else match rd with
       | [] => inr EOF
       | _ => inr ErrUnexpectedEOF
       end.

End io.

(** ** resp.go: protocol values *)

Definition RESP_SIMPLE_STRING : ascii := "+"%char.
Definition RESP_ERROR : ascii := "-"%char.
Definition RESP_INTEGER : ascii := ":"%char.
Definition RESP_BULK_STRING : ascii := "$"%char.
Definition RESP_ARRAY : ascii := "*"%char.

(** The struct [RESPValue]; the field [Type] is [Type_] here. *)
Inductive RESPValue : Type := mkRESPValue
  { Type_ : ascii;
    Str : bytes;
    Num : Z;
    IsNull : bool;
    Array : list RESPValue }.

Definition NewRESPValue (respType : ascii) : RESPValue :=
  mkRESPValue respType [] 0 false [].

Definition withStr (v : RESPValue) (s : bytes) : RESPValue :=
  mkRESPValue (Type_ v) s (Num v) (IsNull v) (Array v).
Definition withNum (v : RESPValue) (n : Z) : RESPValue :=
  mkRESPValue (Type_ v) (Str v) n (IsNull v) (Array v).
Definition withIsNull (v : RESPValue) (b : bool) : RESPValue :=
  mkRESPValue (Type_ v) (Str v) (Num v) b (Array v).
Definition withArray (v : RESPValue) (a : list RESPValue) : RESPValue :=
  mkRESPValue (Type_ v) (Str v) (Num v) (IsNull v) a.

(** The variants of the data model, as [ParseRESP] builds them. *)
Definition SimpleString (s : bytes) : RESPValue :=
  withStr (NewRESPValue RESP_SIMPLE_STRING) s.
Definition Integer (n : Z) : RESPValue := withNum (NewRESPValue RESP_INTEGER) n.
Definition BulkString (s : bytes) : RESPValue :=
  withStr (NewRESPValue RESP_BULK_STRING) s.
Definition NullBulkString : RESPValue :=
  withIsNull (NewRESPValue RESP_BULK_STRING) true.
Definition ArrayOf (elems : list RESPValue) : RESPValue :=
  withArray (NewRESPValue RESP_ARRAY) elems.
Definition NullArray : RESPValue := withIsNull (NewRESPValue RESP_ARRAY) true.

(** A request as a client sends it: an Array of BulkStrings. *)
Definition request (words : list bytes) : RESPValue :=
  ArrayOf (map BulkString words).

(** ** resp.go: errors and outcomes of ParseRESP *)

Inductive error :=
| IoError (e : io.ioError)
| EmptyLine
| InvalidInteger (e : strconv.NumError)
| InvalidBulkLength (e : strconv.NumError)
| FailedBulkRead (e : io.ioError)
| FailedBulkTerminator (e : io.ioError)
| InvalidArrayLength (e : strconv.NumError)
| FailedArrayElement (i : Z) (e : error)
| UnknownType (c : ascii).

(** What a call does to the reader: a value or an error, each with the
    bytes still unread, or a run-time panic. *)
Inductive outcome (A : Type) :=
| Ok (a : A) (rd : bytes)
| Fail (e : error) (rd : bytes)
| Panic.
Arguments Ok {A} a rd.
Arguments Fail {A} e rd.
Arguments Panic {A}.

(** ** Allocation

    [makeslice] panics ("len out of range") when the length is negative or
    when the elements would take more than [maxAlloc] bytes; a byte takes
    one byte and a [*RESPValue] takes eight. *)
Definition maxAlloc : Z := 2 ^ 48.

Definition makePanics (elemSize len : Z) : bool :=
  ((len <? 0) || (maxAlloc <? elemSize * len))%Z.
Arguments makePanics : simpl never.

(** ** resp.go: ParseRESP

    The recursion is on [fuel]; [None] means that the fuel ran out.
    [ParseArray fuel i count acc rd] is the loop
    [for i < count { elem := ParseRESP(reader); Array[i] = elem }], with the
    elements decoded so far in [acc]. *)
Fixpoint ParseRESP (fuel : nat) (rd : bytes) : option (outcome RESPValue) :=
  match fuel with
  | O => None
  | S fuel' =>
      match bufio.ReadString LF rd with
      | None => Some (Fail (IoError io.EOF) [])
      | Some (line, rd) =>
          match strings.TrimSpace line with
          | [] => Some (Fail EmptyLine rd)
          | tag :: rest =>
              let value := NewRESPValue tag in
              if Ascii.eqb tag RESP_SIMPLE_STRING then
                Some (Ok (withStr value rest) rd)
              else if Ascii.eqb tag RESP_ERROR then
                Some (Ok (withStr value rest) rd)
              else if Ascii.eqb tag RESP_INTEGER then
                match strconv.ParseInt64 rest with
                | inr e => Some (Fail (InvalidInteger e) rd)
                | inl num => Some (Ok (withNum value num) rd)
                end
              else if Ascii.eqb tag RESP_BULK_STRING then
                match strconv.Atoi rest with
                | inr e => Some (Fail (InvalidBulkLength e) rd)
                | inl length =>
                    if (length =? -1)%Z then
                      Some (Ok (withIsNull value true) rd)
                    else if makePanics 1 length then Some Panic
                    else
                      match io.ReadFull rd length with
                      | inr e => Some (Fail (FailedBulkRead e) [])
                      | inl (data, rd) =>
                          match bufio.ReadString LF rd with
                          | None =>
                              Some (Fail (FailedBulkTerminator io.EOF) [])
                          | Some (_, rd) => Some (Ok (withStr value data) rd)
                          end
                      end
                end
              else if Ascii.eqb tag RESP_ARRAY then
                match strconv.Atoi rest with
                | inr e => Some (Fail (InvalidArrayLength e) rd)
                | inl count =>
                    if (count =? -1)%Z then
                      Some (Ok (withIsNull value true) rd)
                    else if makePanics 8 count then Some Panic
                    else
                      match ParseArray fuel' 0 count [] rd with
                      | None => None
                      | Some (Ok elems rd) =>
                          Some (Ok (withArray value elems) rd)
                      | Some (Fail e rd) => Some (Fail e rd)
                      | Some Panic => Some Panic
                      end
                end
              else Some (Fail (UnknownType tag) rd)
          end
      end
  end
with ParseArray (fuel : nat) (i count : Z) (acc : list RESPValue) (rd : bytes)
  : option (outcome (list RESPValue)) :=
  match fuel with
  | O => None
  | S fuel' =>
      if (i <? count)%Z then
        match ParseRESP fuel' rd with
        | None => None
        | Some (Ok elem rd) => ParseArray fuel' (i + 1) count (acc ++ [elem]) rd
        | Some (Fail e rd) => Some (Fail (FailedArrayElement i e) rd)
        | Some Panic => Some Panic
        end
      else Some (Ok acc rd)
  end.

(** Every call of the decoder on a stream [rd] returns within this fuel
    ([Decode_total]). *)
Definition Decode (rd : bytes) : option (outcome RESPValue) :=
  ParseRESP (2 * length rd + 1) rd.

(** ** resp.go: SerializeRESP *)

Fixpoint SerializeRESP (v : RESPValue) : bytes :=
  match v with
  | mkRESPValue type str num isNull array =>
      if Ascii.eqb type RESP_SIMPLE_STRING then
        RESP_SIMPLE_STRING :: str ++ CRLF
      else if Ascii.eqb type RESP_ERROR then
        RESP_ERROR :: str ++ CRLF
      else if Ascii.eqb type RESP_INTEGER then
        RESP_INTEGER :: strconv.FormatInt num ++ CRLF
      else if Ascii.eqb type RESP_BULK_STRING then
        RESP_BULK_STRING ::
          (if isNull then B "-1" ++ CRLF
           else strconv.Itoa (Z.of_nat (length str)) ++ CRLF ++ str ++ CRLF)
      else if Ascii.eqb type RESP_ARRAY then
        RESP_ARRAY :: strconv.Itoa (Z.of_nat (length array)) ++ CRLF
          ++ concat (map SerializeRESP array)
      else []
  end.

Definition Encode (v : RESPValue) : bytes := SerializeRESP v.

(** ** Predicates on bytes and values used by the statements below *)

Definition isDigit (c : ascii) : bool := between 48 57 c.

(** An ASCII byte that is not white space. *)
Definition plain (c : ascii) : bool :=
  strings.isASCII c && negb (strings.asciiSpace c).

Definition noLF (s : bytes) : bool := forallb (fun c => negb (Ascii.eqb c LF)) s.

(** What a call leaves unread is part of what it was given. *)
Definition shrinks {A : Type} (strict : bool) (rd : bytes) (o : outcome A) : Prop :=
  match o with
  | Ok _ rd' => if strict then length rd' < length rd else length rd' <= length rd
  | Fail _ rd' => length rd' <= length rd
  | Panic => True
  end.

(** The text of a SimpleString or an Error survives a line: it has no line
    feed, and no white space at its end. *)
Definition lineText (s : bytes) : bool :=
  noLF s && bool_decide (strings.TrimRightSpace s = s).

Definition int64 (n : Z) : bool := ((- 2 ^ 63 <=? n) && (n <? 2 ^ 63))%Z.

Definition isNil {A : Type} (l : list A) : bool :=
  match l with [] => true | _ => false end.

(** The values of the data model, as the struct holds them: the fields a
    variant does not use are zero, an Integer is a 64-bit one, a length is
    one that [make] accepts, and an Array is not null. *)
Fixpoint wellFormed (v : RESPValue) : bool :=
  match v with
  | mkRESPValue type str num isNull array =>
      if Ascii.eqb type RESP_SIMPLE_STRING || Ascii.eqb type RESP_ERROR then
        lineText str && (num =? 0)%Z && negb isNull && isNil array
      else if Ascii.eqb type RESP_INTEGER then
        isNil str && int64 num && negb isNull && isNil array
      else if Ascii.eqb type RESP_BULK_STRING then
        (if isNull then isNil str
         else negb (makePanics 1 (Z.of_nat (length str))))
        && (num =? 0)%Z && isNil array
      else if Ascii.eqb type RESP_ARRAY then
        isNil str && (num =? 0)%Z && negb isNull
        && negb (makePanics 8 (Z.of_nat (length array)))
        && forallb wellFormed array
      else false
  end.

Fixpoint RESPValue_nested_ind (P : RESPValue -> Prop)
  (HP : forall type str num isNull array,
      Forall P array -> P (mkRESPValue type str num isNull array))
  (v : RESPValue) : P v :=
  match v with
  | mkRESPValue type str num isNull array =>
      HP type str num isNull array
        ((fix elems (l : list RESPValue) : Forall P l :=
            match l with
            | [] => List.Forall_nil P
            | x :: l' =>
                List.Forall_cons P x l' (RESPValue_nested_ind P HP x) (elems l')
            end) array)
  end.

(** ** Library functions that depend on Unicode tables

    [strconv.Quote] (used by the text of a [strconv.NumError]) and the
    non-ASCII path of [strings.ToUpper] consult the tables of package
    [unicode]; they are taken as given. *)
Class GoLib := {
  strconv_Quote : bytes -> bytes;
  unicode_ToUpper : bytes -> bytes
}.

Section Server.
Context `{GoLib}.

(** [strings.ToUpper]: byte by byte when the string is ASCII only. *)
Definition ToUpper (s : bytes) : bytes :=
  if forallb strings.isASCII s then map strings.upperASCII s
  else unicode_ToUpper s.

(** *** The text of an error *)

Definition NumError_Error (e : strconv.NumError) : bytes :=
  B "strconv." ++ strconv.Func e ++ B ": parsing "
    ++ strconv_Quote (strconv.Num e) ++ B ": "
    ++ match strconv.Err e with
       | strconv.ErrSyntax => B "invalid syntax"
       | strconv.ErrRange => B "value out of range"
       end.

Definition ioError_Error (e : io.ioError) : bytes :=
  match e with
  | io.EOF => B "EOF"
  | io.ErrUnexpectedEOF => B "unexpected EOF"
  end.

(** The verb [%c] of package fmt applied to a byte: the UTF-8 encoding of
    the code point of that number. *)
Definition fmt_c (c : ascii) : bytes :=
  if strings.isASCII c then [c]
  else [chr (192 + code c / 64); chr (128 + code c mod 64)].

Fixpoint Error (e : error) : bytes :=
  match e with
  | IoError e => ioError_Error e
  | EmptyLine => B "empty line"
  | InvalidInteger e => B "invalid integer: " ++ NumError_Error e
  | InvalidBulkLength e =>
      B "invalid bulk string length: " ++ NumError_Error e
  | FailedBulkRead e => B "failed to read bulk string: " ++ ioError_Error e
  | FailedBulkTerminator e =>
      B "failed to read bulk string terminator: " ++ ioError_Error e
  | InvalidArrayLength e => B "invalid array length: " ++ NumError_Error e
  | FailedArrayElement i e =>
      B "failed to parse array element " ++ strconv.FormatInt i ++ B ": "
        ++ Error e
  | UnknownType c => B "unknown RESP type: " ++ fmt_c c
  end.

(** *** server.go: the handlers

    The store is the field [store map[string]string] of [RedisServer]; a
    handler takes it and returns it with the reply. *)

Definition errorResp (msg : bytes) : RESPValue :=
  withStr (NewRESPValue RESP_ERROR) msg.

Definition isBulk (v : RESPValue) : bool :=
  Ascii.eqb (Type_ v) RESP_BULK_STRING.

Definition handlePing : RESPValue :=
  withStr (NewRESPValue RESP_SIMPLE_STRING) (B "PONG").

(** [len(command.Array) < 2] is the last branch of the match. *)
Definition handleEcho (command : RESPValue) : RESPValue :=
  match Array command with
  | _ :: arg :: _ =>
      if negb (isBulk arg) then
        errorResp
          (B "ERR Protocol error: expected bulk string for echo argument")
      else withStr (NewRESPValue RESP_BULK_STRING) (Str arg)
  | _ => errorResp (B "ERR wrong number of arguments for 'echo' command")
  end.

Definition handleSet (store : gmap bytes bytes) (command : RESPValue)
  : RESPValue * gmap bytes bytes :=
  match Array command with
  | _ :: k :: v :: _ =>
      if negb (isBulk k) || negb (isBulk v) then
        (errorResp
           (B "ERR Protocol error: expected bulk string for key and value"),
         store)
      else
        let key := Str k in
        let value := Str v in
        (withStr (NewRESPValue RESP_SIMPLE_STRING) (B "OK"),
         <[key := value]> store)
  | _ =>
      (errorResp (B "ERR wrong number of arguments for 'set' command"),
       store)
  end.

Definition handleGet (store : gmap bytes bytes) (command : RESPValue)
  : RESPValue :=
  match Array command with
  | _ :: k :: _ =>
      if negb (isBulk k) then
        errorResp (B "ERR Protocol error: expected bulk string for key")
      else
        let key := Str k in
        match store !! key with
        | None => withIsNull (NewRESPValue RESP_BULK_STRING) true
        | Some value => withStr (NewRESPValue RESP_BULK_STRING) value
        end
  | _ => errorResp (B "ERR wrong number of arguments for 'get' command")
  end.

Definition handleQuit : RESPValue :=
  withStr (NewRESPValue RESP_SIMPLE_STRING) (B "OK").

Definition handleInfo : RESPValue :=
  withStr (NewRESPValue RESP_BULK_STRING)
    (B "# Server" ++ CRLF ++ B "redis_version:0.1.0" ++ CRLF).

(** *** server.go: processCommand *)

Definition processCommand (store : gmap bytes bytes) (command : RESPValue)
  : RESPValue * gmap bytes bytes :=
  if negb (Ascii.eqb (Type_ command) RESP_ARRAY) || IsNull command then
    (errorResp (B "ERR Protocol error: expected array"), store)
  else
    match Array command with
    | [] => (errorResp (B "ERR empty command"), store)
    | cmdValue :: _ =>
        if negb (isBulk cmdValue) then
          (errorResp
             (B "ERR Protocol error: expected bulk string for command"),
           store)
        else
          let cmd := ToUpper (Str cmdValue) in
          if decide (cmd = B "PING") then (handlePing, store)
          else if decide (cmd = B "ECHO") then (handleEcho command, store)
          else if decide (cmd = B "SET") then handleSet store command
          else if decide (cmd = B "GET") then
            (handleGet store command, store)
          else if decide (cmd = B "QUIT") then (handleQuit, store)
          else if decide (cmd = B "INFO") then (handleInfo, store)
          else
            (errorResp (B "ERR unknown command '" ++ cmd ++ B "'"), store)
    end.

(** *** server.go: handleConnection

    A connection is its status, the bytes the client has sent and the
    server has not read, the bytes written to the client, and the store.
    [conn.Write] is taken to succeed (the code ignores its result). *)

Inductive status := OPEN | CLOSED | CRASHED.

Record conn := mkConn
  { state : status;
    reader : bytes;
    written : bytes;
    store : gmap bytes bytes }.

(** One turn of the [for] loop. *)
Definition iteration (c : conn) : conn :=
  match Decode (reader c) with
  | None => c
  | Some (Fail err rd) =>
      if decide (Error err = B "EOF") then
        mkConn CLOSED rd (written c) (store c)
      else
        let errorResp := errorResp (B "ERR " ++ Error err) in
        mkConn OPEN rd (written c ++ SerializeRESP errorResp) (store c)
  | Some Panic => mkConn CRASHED (reader c) (written c) (store c)
  | Some (Ok command rd) =>
      let (response, store') := processCommand (store c) command in
      mkConn OPEN rd (written c ++ SerializeRESP response) store'
  end.

(** The loop, for at most [fuel] turns. *)
Fixpoint handleConnection (fuel : nat) (c : conn) : conn :=
  match state c with
  | OPEN =>
      match fuel with
      | O => c
      | S fuel' => handleConnection fuel' (iteration c)
      end
  | _ => c
  end.

(** A new connection on a server whose store is [store]. *)
Definition accept (input : bytes) (store : gmap bytes bytes) : conn :=
  mkConn OPEN input [] store.

End Server.

(** Stand-ins for evaluating the server on concrete inputs: exact on
    printable ASCII text without quotes, backslashes or lower-case letters. *)
Definition demoLib : GoLib :=
  {| strconv_Quote := fun s => "034"%char :: s ++ ["034"%char];
     unicode_ToUpper := fun s => s |}.

(** A value with every variant in it. *)
Definition sampleValue : RESPValue :=
  ArrayOf
    [BulkString (B "SET"); NullBulkString; BulkString []; ArrayOf [];
     ArrayOf [Integer (-42); SimpleString (B "OK"); errorResp (B "ERR no")]].

(** A client that sends QUIT and then PING. *)
Definition quitThenPing : bytes :=
  B "*1" ++ CRLF ++ B "$4" ++ CRLF ++ B "QUIT" ++ CRLF
    ++ B "*1" ++ CRLF ++ B "$4" ++ CRLF ++ B "PING" ++ CRLF.

(** ** The store under two concurrent workers *)

Module Concurrent.

(** [sync.RWMutex]: held by one writer, or by some readers. *)
Record RWMutex := mkRWMutex { writer : bool; readers : nat }.

(** What the workers share: the map [rs.store] with the flag that Go's
    runtime keeps while an assignment to the map is under way, the mutex
    [rs.mutex], and whether the runtime has stopped the process. *)
Record shared := mkShared
  { store : gmap bytes bytes;
    writing : bool;
    mutex : RWMutex;
    fatal : bool }.

(** The steps of a worker on what is shared. An assignment to a map is not
    atomic: it begins, and later ends. *)
Inductive instr :=
| Lock
| Unlock
| RLock
| RUnlock
| AssignBegin
| AssignEnd (key value : bytes)
| Access (key : bytes).

(** handleSet, after its checks:
    [rs.mutex.Lock(); rs.store[key] = value; rs.mutex.Unlock()]. *)
Definition handleSet_code (key value : bytes) : list instr :=
  [Lock; AssignBegin; AssignEnd key value; Unlock].

(** handleGet, after its checks:
    [rs.mutex.RLock(); value, exists := rs.store[key]; rs.mutex.RUnlock()]. *)
Definition handleGet_code (key : bytes) : list instr :=
  [RLock; Access key; RUnlock].

(** One step; [None] when the worker has to wait. The runtime stops the
    process when a map is written while it is being written, or read while
    it is being written, and when a mutex that is not held is released. *)
Definition exec (i : instr) (m : shared) : option shared :=
  let mu := mutex m in
  match i with
  | Lock =>
      if writer mu || negb (readers mu =? 0) then None
      else Some (mkShared (store m) (writing m)
                   (mkRWMutex true (readers mu)) (fatal m))
  | Unlock =>
      if writer mu then
        Some (mkShared (store m) (writing m)
                (mkRWMutex false (readers mu)) (fatal m))
      else Some (mkShared (store m) (writing m) mu true)
  | RLock =>
      if writer mu then None
      else Some (mkShared (store m) (writing m)
                   (mkRWMutex false (S (readers mu))) (fatal m))
  | RUnlock =>
      match readers mu with
      | O => Some (mkShared (store m) (writing m) mu true)
      | S n =>
          Some (mkShared (store m) (writing m)
                  (mkRWMutex (writer mu) n) (fatal m))
      end
  | AssignBegin =>
      if writing m then Some (mkShared (store m) (writing m) mu true)
      else Some (mkShared (store m) true mu (fatal m))
  | AssignEnd key value =>
      Some (mkShared (<[key := value]> (store m)) false mu (fatal m))
  | Access key =>
      if writing m then Some (mkShared (store m) (writing m) mu true)
      else Some m
  end.

(** Two workers, each with the steps it still has to take. *)
Record system := mkSystem
  { mem : shared; worker1 : list instr; worker2 : list instr }.

(** The scheduler lets either worker take its next step, as long as the
    process runs. *)
Inductive step : system -> system -> Prop :=
| step_worker1 m m' i rest w2 :
    fatal m = false -> exec i m = Some m' ->
    step (mkSystem m (i :: rest) w2) (mkSystem m' rest w2)
| step_worker2 m m' i rest w1 :
    fatal m = false -> exec i m = Some m' ->
    step (mkSystem m w1 (i :: rest)) (mkSystem m' w1 rest).

(** Two workers enter handleSet on a server whose mutex is free. *)
Definition twoSets (store : gmap bytes bytes) (k v1 v2 : bytes) : system :=
  mkSystem (mkShared store false (mkRWMutex false 0) false)
    (handleSet_code k v1) (handleSet_code k v2).

(** A worker is between [Lock] and [Unlock]. *)
Definition inCritical (w : list instr) : bool :=
  match w with
  | [AssignBegin; AssignEnd _ _; Unlock] | [AssignEnd _ _; Unlock] | [Unlock] =>
      true
  | _ => false
  end.

Definition finished (s : system) : bool :=
  isNil (worker1 s) && isNil (worker2 s).

(** What holds while the two workers run: [n1] and [n2] count the steps
    they have taken. *)
Definition critical (n : nat) : bool := (1 <=? n) && (n <=? 3).

Definition invariant (k v1 v2 : bytes) (s : system) : Prop :=
  exists n1 n2,
    worker1 s = skipn n1 (handleSet_code k v1)
    /\ worker2 s = skipn n2 (handleSet_code k v2)
    /\ n1 <= 4 /\ n2 <= 4
    /\ fatal (mem s) = false
    /\ readers (mutex (mem s)) = 0
    /\ writer (mutex (mem s)) = critical n1 || critical n2
    /\ critical n1 && critical n2 = false
    /\ writing (mem s) = (n1 =? 2) || (n2 =? 2)
    /\ (3 <= n1 \/ 3 <= n2 ->
        store (mem s) !! k = Some v1 \/ store (mem s) !! k = Some v2).

End Concurrent.

(** ** More of the code, and what the further properties are stated with *)

(** What is left unread after a call, whatever the call returns. *)
Definition unread {A : Type} (o : outcome A) : option bytes :=
  match o with
  | Ok _ rd => Some rd
  | Fail _ rd => Some rd
  | Panic => None
  end.

(** A line that is the header of a BulkString or of an Array and declares a
    length, other than -1, for which [make] panics. *)
Definition refusedHeader (line : bytes) : bool :=
  match strings.TrimSpace line with
  | [] => false
  | tag :: text =>
      if Ascii.eqb tag RESP_BULK_STRING then
        match strconv.Atoi text with
        | inl length => negb (length =? -1)%Z && makePanics 1 length
        | inr _ => false
        end
      else if Ascii.eqb tag RESP_ARRAY then
        match strconv.Atoi text with
        | inl count => negb (count =? -1)%Z && makePanics 8 count
        | inr _ => false
        end
      else false
  end.

(** The stream has such a header in it: a whole line, as [ReadString] cuts
    it after some bytes [before]. *)
Definition hasRefusedHeader (rd : bytes) : Prop :=
  exists before line after,
    rd = before ++ line ++ after
    /\ bufio.ReadString LF (line ++ after) = Some (line, after)
    /\ refusedHeader line = true.


(** What [ParseRESP] can return: as [wellFormed], and an Array may be null. *)
Fixpoint decoded (v : RESPValue) : bool :=
  match v with
  | mkRESPValue type str num isNull array =>
      if Ascii.eqb type RESP_SIMPLE_STRING || Ascii.eqb type RESP_ERROR then
        lineText str && (num =? 0)%Z && negb isNull && isNil array
      else if Ascii.eqb type RESP_INTEGER then
        isNil str && int64 num && negb isNull && isNil array
      else if Ascii.eqb type RESP_BULK_STRING then
        (if isNull then isNil str
         else negb (makePanics 1 (Z.of_nat (length str))))
        && (num =? 0)%Z && isNil array
      else if Ascii.eqb type RESP_ARRAY then
        isNil str && (num =? 0)%Z
        && (if isNull then isNil array
            else negb (makePanics 8 (Z.of_nat (length array)))
                 && forallb decoded array)
      else false
  end.

(** A null Array, at any depth. *)
Fixpoint hasNullArray (v : RESPValue) : bool :=
  match v with
  | mkRESPValue type _ _ isNull array =>
      (Ascii.eqb type RESP_ARRAY && isNull) || existsb hasNullArray array
  end.

(** *** resp.go: ToString *)



(** The fields of an argument that the handlers read. *)
Definition bare (v : RESPValue) : RESPValue :=
  mkRESPValue (Type_ v) (Str v) 0 false [].

Section Serving.
Context `{GoLib}.

(** The replies to a list of requests served one after the other, and the
    store after the last one. *)
Fixpoint serve (store : gmap bytes bytes) (requests : list RESPValue)
  : list RESPValue * gmap bytes bytes :=
  match requests with
  | [] => ([], store)
  | command :: requests' =>
      let (response, store') := processCommand store command in
      let (responses, store'') := serve store' requests' in
      (response :: responses, store'')
  end.

End Serving.

(** *** The store under a worker that reads *)

Module Readers.
Import Concurrent.

(** What a step reads from the map: [value, exists := rs.store[key]]. *)
Definition observe (i : instr) (m : shared) : list (option bytes) :=
  match i with
  | Access key => [store m !! key]
  | _ => []
  end.

(** Two workers, with what each has read from the map so far. *)
Record run := mkRun
  { sys : system;
    seen1 : list (option bytes);
    seen2 : list (option bytes) }.

Inductive stepSeen : run -> run -> Prop :=
| seen_worker1 m m' i rest w2 s1 s2 :
    fatal m = false -> exec i m = Some m' ->
    stepSeen (mkRun (mkSystem m (i :: rest) w2) s1 s2)
      (mkRun (mkSystem m' rest w2) (s1 ++ observe i m) s2)
| seen_worker2 m m' i rest w1 s1 s2 :
    fatal m = false -> exec i m = Some m' ->
    stepSeen (mkRun (mkSystem m w1 (i :: rest)) s1 s2)
      (mkRun (mkSystem m' w1 rest) s1 (s2 ++ observe i m)).

(** A worker in handleSet and a worker in handleGet, on a free mutex. *)
Definition setAndGet (store : gmap bytes bytes) (k v k' : bytes) : run :=
  mkRun (mkSystem (mkShared store false (mkRWMutex false 0) false)
           (handleSet_code k v) (handleGet_code k')) [] [].

(** Two workers in handleGet, on a free mutex. *)
Definition twoGets (store : gmap bytes bytes) (k1 k2 : bytes) : run :=
  mkRun (mkSystem (mkShared store false (mkRWMutex false 0) false)
           (handleGet_code k1) (handleGet_code k2)) [] [].

(** A reader is between [RLock] and [RUnlock] after one or two steps. *)
Definition reading (n : nat) : bool := (1 <=? n) && (n <=? 2).

Definition invariantSetGet (st : gmap bytes bytes) (k v k' : bytes) (r : run)
  : Prop :=
  exists n1 n2,
    worker1 (sys r) = skipn n1 (handleSet_code k v)
    /\ worker2 (sys r) = skipn n2 (handleGet_code k')
    /\ n1 <= 4 /\ n2 <= 3
    /\ fatal (mem (sys r)) = false
    /\ writer (mutex (mem (sys r))) = critical n1
    /\ readers (mutex (mem (sys r))) = (if reading n2 then 1 else 0)
    /\ critical n1 && reading n2 = false
    /\ writing (mem (sys r)) = (n1 =? 2)
    /\ store (mem (sys r)) = (if 3 <=? n1 then <[k := v]> st else st)
    /\ seen1 r = []
    /\ (if 2 <=? n2
        then seen2 r = [st !! k'] \/ seen2 r = [<[k := v]> st !! k']
        else seen2 r = []).

Definition invariantGets (st : gmap bytes bytes) (k1 k2 : bytes) (r : run)
  : Prop :=
  exists n1 n2,
    worker1 (sys r) = skipn n1 (handleGet_code k1)
    /\ worker2 (sys r) = skipn n2 (handleGet_code k2)
    /\ n1 <= 3 /\ n2 <= 3
    /\ fatal (mem (sys r)) = false
    /\ writer (mutex (mem (sys r))) = false
    /\ readers (mutex (mem (sys r)))
       = (if reading n1 then 1 else 0) + (if reading n2 then 1 else 0)
    /\ writing (mem (sys r)) = false
    /\ store (mem (sys r)) = st
    /\ seen1 r = (if 2 <=? n1 then [st !! k1] else [])
    /\ seen2 r = (if 2 <=? n2 then [st !! k2] else []).

End Readers.

(** * Properties *)

(** ** Facts about bytes *)

Lemma code_range (c : ascii) : (0 <= code c < 256)%Z.
Proof.
  unfold code. pose proof (N_ascii_bounded c). lia.
Qed.

Lemma code_chr (z : Z) : (0 <= z < 256)%Z -> code (chr z) = z.
Proof.
  intros Hz. unfold code, chr.
  rewrite N_ascii_embedding by lia. lia.
Qed.

Lemma chr_code (c : ascii) : chr (code c) = c.
Proof.
  unfold code, chr. rewrite N2Z.id. apply ascii_N_embedding.
Qed.

Lemma code_inj (c d : ascii) : code c = code d -> c = d.
Proof.
  intros Hcd. rewrite <- (chr_code c), <- (chr_code d). now rewrite Hcd.
Qed.

Lemma eqb_code (c d : ascii) : Ascii.eqb c d = (code c =? code d)%Z.
Proof.
  destruct (Ascii.eqb_spec c d) as [->|Hne].
  - symmetry. apply Z.eqb_refl.
  - symmetry. apply Z.eqb_neq. intros Hcd. apply Hne, code_inj, Hcd.
Qed.

(** ** Facts about strconv *)

Lemma isDigit_chr (d : Z) : (0 <= d < 10)%Z -> isDigit (chr (48 + d)) = true.
Proof.
  intros Hd. unfold isDigit, between. rewrite code_chr by lia. lia.
Qed.

Lemma digit_val_chr (d : Z) :
  (0 <= d < 10)%Z -> strconv.digit_val (chr (48 + d)) = Some d.
Proof.
  intros Hd. unfold strconv.digit_val.
  fold (isDigit (chr (48 + d))). rewrite isDigit_chr by lia.
  rewrite code_chr by lia. f_equal. lia.
Qed.

Lemma utoa_digits (fuel : nat) (u : Z) (acc : bytes) :
  forallb isDigit acc = true -> forallb isDigit (strconv.utoa fuel u acc) = true.
Proof.
  revert u acc. induction fuel as [|fuel IH]; intros u acc Hacc; simpl; [exact Hacc|].
  assert (Hd : forallb isDigit (chr (48 + u mod 10) :: acc) = true).
  { simpl. rewrite isDigit_chr, Hacc; [reflexivity|].
    apply Z.mod_pos_bound. lia. }
  destruct (u <? 10)%Z; [exact Hd|]. apply IH, Hd.
Qed.

Lemma utoa_nonempty (fuel : nat) (u : Z) (acc : bytes) :
  strconv.utoa (S fuel) u acc <> [].
Proof.
  revert u acc. induction fuel as [|fuel IH]; intros u acc.
  - simpl. destruct (u <? 10)%Z; discriminate.
  - change (strconv.utoa (S (S fuel)) u acc)
      with (let acc' := chr (48 + u mod 10) :: acc in
            if (u <? 10)%Z then acc' else strconv.utoa (S fuel) (u / 10) acc').
    cbv zeta. destruct (u <? 10)%Z; [discriminate|]. apply IH.
Qed.

Lemma ParseUint_loop_utoa (fuel : nat) (u : Z) (acc : bytes) :
  (0 <= u <= strconv.maxUint64)%Z -> (u < 10 ^ Z.of_nat fuel)%Z ->
  strconv.ParseUint_loop 0 (strconv.utoa fuel u acc)
  = strconv.ParseUint_loop u acc.
Proof.
  revert u acc. induction fuel as [|fuel IH]; intros u acc Hu Hf.
  - simpl in *. assert (u = 0)%Z by lia. now subst.
  - assert (Hm : (0 <= u mod 10 < 10)%Z) by (apply Z.mod_pos_bound; lia).
    pose proof (Z.div_mod u 10 ltac:(lia)) as Hdm.
    assert (Hstep : forall n, (0 <= n)%Z -> (n * 10 + u mod 10 = u)%Z ->
              strconv.ParseUint_loop n (chr (48 + u mod 10) :: acc)
              = strconv.ParseUint_loop u acc).
    { intros n Hn Hnu. simpl. rewrite digit_val_chr by exact Hm.
      unfold strconv.cutoff, strconv.maxUint64 in *.
      destruct (n >=? (2 ^ 64 - 1) / 10 + 1)%Z eqn:Hc.
      - exfalso. change ((2 ^ 64 - 1) / 10 + 1)%Z with 1844674407370955162%Z in Hc. lia.
      - rewrite Hnu. destruct (u >? 2 ^ 64 - 1)%Z eqn:Hg; [lia|reflexivity]. }
    simpl. destruct (u <? 10)%Z eqn:Hlt.
    + apply Hstep; [lia|]. rewrite Z.mod_small by lia. lia.
    + rewrite IH.
      * apply Hstep; lia.
      * unfold strconv.maxUint64 in *. lia.
      * rewrite Nat2Z.inj_succ, Z.pow_succ_r in Hf by lia. lia.
Qed.

Lemma ParseUint_utoa (u : Z) :
  (0 <= u <= strconv.maxUint64)%Z ->
  strconv.ParseUint (strconv.utoa 20 u []) = inl u.
Proof.
  intros Hu. unfold strconv.ParseUint.
  destruct (strconv.utoa 20 u []) eqn:E.
  - now apply utoa_nonempty in E.
  - rewrite <- E. rewrite ParseUint_loop_utoa; [reflexivity|exact Hu|].
    unfold strconv.maxUint64 in Hu. change (10 ^ Z.of_nat 20)%Z with 100000000000000000000%Z. lia.
Qed.

Lemma digit_not_sign (c : ascii) :
  isDigit c = true -> Ascii.eqb c "+" = false /\ Ascii.eqb c "-" = false.
Proof.
  unfold isDigit, between. intros Hc. rewrite !eqb_code.
  change (code "+") with 43%Z. change (code "-") with 45%Z. lia.
Qed.

Lemma ParseInt_FormatInt (i : Z) :
  (- 2 ^ 63 <= i < 2 ^ 63)%Z -> strconv.ParseInt (strconv.FormatInt i) = inl i.
Proof.
  intros Hi. unfold strconv.FormatInt.
  destruct (i <? 0)%Z eqn:Hneg.
  - unfold strconv.ParseInt. cbn [Ascii.eqb Bool.eqb orb].
    change (Ascii.eqb "-" "-") with true. cbn [orb].
    rewrite ParseUint_utoa by (unfold strconv.maxUint64; lia).
    cbn [negb andb].
    destruct (- i >? 2 ^ 63)%Z eqn:Hg; [lia|]. f_equal. lia.
  - pose proof (ParseUint_utoa i ltac:(unfold strconv.maxUint64; lia)) as HP.
    pose proof (utoa_digits 20 i [] eq_refl) as HD.
    destruct (strconv.utoa 20 i []) as [|c s] eqn:E.
    { now apply utoa_nonempty in E. }
    simpl in HD. apply andb_prop in HD as [Hc _].
    destruct (digit_not_sign c Hc) as [Hp Hm].
    unfold strconv.ParseInt. rewrite Hp, Hm. cbn [orb]. rewrite HP.
    cbn [negb andb]. destruct (i >=? 2 ^ 63)%Z eqn:Hg; [lia|reflexivity].
Qed.

(** ** Facts about strings.TrimSpace *)

Lemma plain_not_space (c : ascii) : plain c = true -> strings.asciiSpace c = false.
Proof.
  unfold plain. intros Hc. apply andb_prop in Hc as [_ Hc].
  now apply negb_true_iff in Hc.
Qed.

Lemma plain_space2 (c b : ascii) : plain c = true -> strings.space2 c b = false.
Proof.
  unfold plain, strings.isASCII, strings.space2. intros Hc.
  apply andb_prop in Hc as [Hc _].
  destruct (code c =? 194)%Z eqn:E; [lia|reflexivity].
Qed.

Lemma plain_space3 (c b1 b2 : ascii) :
  plain c = true -> strings.space3 c b1 b2 = false.
Proof.
  unfold plain, strings.isASCII, strings.space3. intros Hc.
  apply andb_prop in Hc as [Hc _].
  destruct (code c =? 225)%Z eqn:E1; [lia|].
  destruct (code c =? 226)%Z eqn:E2; [lia|].
  destruct (code c =? 227)%Z eqn:E3; [lia|reflexivity].
Qed.

Lemma TrimLeftSpace_plain (c : ascii) (s : bytes) :
  plain c = true -> strings.TrimLeftSpace (c :: s) = c :: s.
Proof.
  intros Hc. simpl. rewrite (plain_not_space c Hc).
  destruct s as [|b1 [|b2 s]]; [reflexivity| |].
  - now rewrite plain_space2.
  - now rewrite plain_space2, plain_space3.
Qed.

Lemma dropSpaceRev_snoc (c : ascii) (u : bytes) :
  plain c = true ->
  strings.dropSpaceRev (u ++ [c]) = strings.dropSpaceRev u ++ [c].
Proof.
  intros Hc.
  assert (Hn : forall n u, length u <= n ->
            strings.dropSpaceRev (u ++ [c]) = strings.dropSpaceRev u ++ [c]).
  { clear u. induction n as [|n IH]; intros u Hlen.
    - destruct u; [|simpl in Hlen; lia].
      simpl. now rewrite (plain_not_space c Hc).
    - destruct u as [|b0 [|b1 [|b2 u]]].
      + simpl. now rewrite (plain_not_space c Hc).
      + simpl. rewrite (plain_not_space c Hc), plain_space2 by exact Hc.
        now destruct (strings.asciiSpace b0).
      + simpl in *. rewrite (plain_not_space c Hc), plain_space2 by exact Hc.
        rewrite plain_space3 by exact Hc.
        destruct (strings.asciiSpace b0).
        * destruct (strings.asciiSpace b1); reflexivity.
        * destruct (strings.space2 b1 b0); reflexivity.
      + change (strings.dropSpaceRev ((b0 :: b1 :: b2 :: u) ++ [c]))
          with (if strings.asciiSpace b0
                then strings.dropSpaceRev ((b1 :: b2 :: u) ++ [c])
                else if strings.space2 b1 b0
                     then strings.dropSpaceRev ((b2 :: u) ++ [c])
                     else if strings.space3 b2 b1 b0
                          then strings.dropSpaceRev (u ++ [c])
                          else (b0 :: b1 :: b2 :: u) ++ [c]).
        change (strings.dropSpaceRev (b0 :: b1 :: b2 :: u))
          with (if strings.asciiSpace b0
                then strings.dropSpaceRev (b1 :: b2 :: u)
                else if strings.space2 b1 b0
                     then strings.dropSpaceRev (b2 :: u)
                     else if strings.space3 b2 b1 b0
                          then strings.dropSpaceRev u
                          else b0 :: b1 :: b2 :: u).
        simpl in Hlen.
        destruct (strings.asciiSpace b0); [apply IH; simpl; lia|].
        destruct (strings.space2 b1 b0); [apply IH; simpl; lia|].
        destruct (strings.space3 b2 b1 b0); [apply IH; lia|reflexivity]. }
  apply (Hn (length u)). lia.
Qed.

Lemma TrimRightSpace_cons (c : ascii) (s : bytes) :
  plain c = true ->
  strings.TrimRightSpace (c :: s) = c :: strings.TrimRightSpace s.
Proof.
  intros Hc. unfold strings.TrimRightSpace. simpl rev.
  rewrite dropSpaceRev_snoc by exact Hc.
  now rewrite rev_app_distr.
Qed.

Lemma TrimRightSpace_snoc (s : bytes) (b : ascii) :
  strings.asciiSpace b = true ->
  strings.TrimRightSpace (s ++ [b]) = strings.TrimRightSpace s.
Proof.
  intros Hb. unfold strings.TrimRightSpace.
  rewrite rev_app_distr. simpl. now rewrite Hb.
Qed.

Lemma TrimRightSpace_CRLF (s : bytes) :
  strings.TrimRightSpace (s ++ CRLF) = strings.TrimRightSpace s.
Proof.
  change (s ++ CRLF) with (s ++ [CR] ++ [LF]). rewrite app_assoc.
  now rewrite !TrimRightSpace_snoc.
Qed.

Lemma TrimRightSpace_plain (s : bytes) :
  forallb plain s = true -> strings.TrimRightSpace s = s.
Proof.
  induction s as [|c s IH]; intros Hs; [reflexivity|].
  simpl in Hs. apply andb_prop in Hs as [Hc Hs].
  rewrite TrimRightSpace_cons by exact Hc. now rewrite IH.
Qed.

(** A line that starts with a plain byte keeps it, and loses the white space
    at its end. *)
Lemma TrimSpace_line (c : ascii) (s : bytes) :
  plain c = true ->
  strings.TrimSpace (c :: s ++ [LF]) = c :: strings.TrimRightSpace s.
Proof.
  intros Hc. unfold strings.TrimSpace.
  rewrite TrimLeftSpace_plain by exact Hc.
  rewrite TrimRightSpace_cons by exact Hc.
  now rewrite TrimRightSpace_snoc.
Qed.

Lemma TrimSpace_line_CRLF (c : ascii) (s : bytes) :
  plain c = true ->
  strings.TrimSpace (c :: (s ++ CRLF)) = c :: strings.TrimRightSpace s.
Proof.
  intros Hc. change (s ++ CRLF) with (s ++ [CR] ++ [LF]). rewrite app_assoc.
  rewrite TrimSpace_line by exact Hc.
  now rewrite TrimRightSpace_snoc.
Qed.

Lemma isDigit_plain (c : ascii) : isDigit c = true -> plain c = true.
Proof.
  unfold isDigit, plain, strings.isASCII, strings.asciiSpace, between.
  intros Hc. lia.
Qed.

Lemma FormatInt_plain (i : Z) : forallb plain (strconv.FormatInt i) = true.
Proof.
  assert (Hd : forall u, forallb plain (strconv.utoa 20 u []) = true).
  { intros u. pose proof (utoa_digits 20 u [] eq_refl) as HD.
    rewrite forallb_forall in *. intros c Hin. apply isDigit_plain, HD, Hin. }
  unfold strconv.FormatInt. destruct (i <? 0)%Z; [|apply Hd].
  simpl. apply Hd.
Qed.

(** ** Facts about bufio.ReadString *)

Lemma ReadString_line (s rest : bytes) :
  noLF s = true ->
  bufio.ReadString LF (s ++ LF :: rest) = Some (s ++ [LF], rest).
Proof.
  induction s as [|c s IH]; intros Hs; simpl.
  - reflexivity.
  - simpl in Hs. apply andb_prop in Hs as [Hc Hs].
    apply negb_true_iff in Hc. rewrite Hc, IH by exact Hs. reflexivity.
Qed.


Lemma ReadString_Some (rd line rest : bytes) :
  bufio.ReadString LF rd = Some (line, rest) ->
  exists s, noLF s = true /\ line = s ++ [LF] /\ rd = s ++ LF :: rest.
Proof.
  revert line. induction rd as [|c rd IH]; intros line; simpl; [discriminate|].
  destruct (Ascii.eqb_spec c LF) as [->|Hne].
  - intros [= <- <-]. exists []. auto.
  - destruct (bufio.ReadString LF rd) as [[l r]|]; [|discriminate].
    intros [= <- <-]. destruct (IH l eq_refl) as (s & Hs & -> & ->).
    exists (c :: s). simpl. rewrite Hs.
    destruct (Ascii.eqb_spec c LF); [contradiction|]. auto.
Qed.

Lemma ReadString_shorter (rd line rest : bytes) :
  bufio.ReadString LF rd = Some (line, rest) -> length rest < length rd.
Proof.
  intros Hr. apply ReadString_Some in Hr as (s & _ & _ & ->).
  rewrite length_app. simpl. lia.
Qed.

(** ** Facts about allocation *)

Lemma makePanics_false (elemSize len : Z) :
  makePanics elemSize len = false
  <-> (0 <= len /\ elemSize * len <= 2 ^ 48)%Z.
Proof.
  unfold makePanics, maxAlloc.
  destruct (Z.ltb_spec len 0); destruct (Z.ltb_spec (2 ^ 48) (elemSize * len));
    simpl; split; intros; try discriminate; try lia; reflexivity.
Qed.

(** ** Fuel: more never changes a result, and twice the input is enough *)

Ltac break_match_in H :=
  match type of H with
  | context [match ?x with _ => _ end] => destruct x eqn:?
  end.

Ltac break_match_goal :=
  match goal with
  | |- context [match ?x with _ => _ end] => destruct x eqn:?
  end.

Lemma ParseRESP_fuel_mono (fuel : nat) :
  (forall fuel' rd o, fuel <= fuel' ->
     ParseRESP fuel rd = Some o -> ParseRESP fuel' rd = Some o)
  /\ (forall fuel' i count acc rd o, fuel <= fuel' ->
        ParseArray fuel i count acc rd = Some o ->
        ParseArray fuel' i count acc rd = Some o).
Proof.
  induction fuel as [|fuel [IHv IHa]]; [split; intros; discriminate|].
  split.
  - intros [|fuel'] rd o Hle Hp; [lia|].
    assert (Hle' : fuel <= fuel') by lia.
    simpl in Hp |- *.
    repeat (break_match_in Hp; try congruence);
      try (erewrite IHa by eauto; congruence).
  - intros [|fuel'] i count acc rd o Hle Hp; [lia|].
    assert (Hle' : fuel <= fuel') by lia.
    simpl in Hp |- *.
    destruct (i <? count)%Z; [|exact Hp].
    destruct (ParseRESP fuel rd) as [[elem rd'|e rd'|]|] eqn:Hv;
      try discriminate; rewrite (IHv fuel' _ _ Hle' Hv); auto.
Qed.

Lemma ReadFull_shorter (rd : bytes) (n : Z) (data rd' : bytes) :
  io.ReadFull rd n = inl (data, rd') -> length rd' <= length rd.
Proof.
  unfold io.ReadFull. destruct (n <=? Z.of_nat (length rd))%Z.
  - intros [= <- <-]. rewrite length_skipn. lia.
  - destruct rd; discriminate.
Qed.

Lemma ParseRESP_fuel_enough (fuel : nat) :
  (forall rd, 2 * length rd < fuel ->
     exists o, ParseRESP fuel rd = Some o /\ shrinks true rd o)
  /\ (forall i count acc rd, 2 * length rd + 1 < fuel ->
        exists o, ParseArray fuel i count acc rd = Some o /\ shrinks false rd o).
Proof.
  induction fuel as [|fuel [IHv IHa]]; [split; intros; lia|].
  split.
  - intros rd Hf. simpl.
    destruct (bufio.ReadString LF rd) as [[line rd1]|] eqn:Hline.
    2:{ eexists. split; [reflexivity|]. simpl. lia. }
    pose proof (ReadString_shorter _ _ _ Hline) as Hlt.
    destruct (IHa 0%Z 0%Z [] rd1 ltac:(lia)) as (oa & _ & _).
    repeat (break_match_goal; try congruence);
      try (eexists; split; [reflexivity|]; simpl; lia).
    all: try match goal with
      | Hr : io.ReadFull _ _ = inl _, Hs : bufio.ReadString LF _ = Some _ |- _ =>
          apply ReadFull_shorter in Hr; apply ReadString_shorter in Hs;
          eexists; split; [reflexivity|]; simpl; lia
      end.
    all: match goal with
      | Hp : ParseArray _ _ ?count _ _ = _ |- _ =>
          destruct (IHa 0%Z count [] rd1 ltac:(lia)) as (o' & Ho' & Hs');
          rewrite Hp in Ho'; inversion Ho'; subst o';
          try (eexists; split; [reflexivity|]; simpl in *; lia)
      end.
  - intros i count acc rd Hf. simpl.
    destruct (i <? count)%Z.
    2:{ eexists. split; [reflexivity|]. simpl. lia. }
    destruct (IHv rd ltac:(lia)) as (o & -> & Hs).
    destruct o as [elem rd'|e rd'|]; simpl in Hs.
    + destruct (IHa (i + 1)%Z count (acc ++ [elem]) rd' ltac:(lia))
        as (o' & -> & Hs').
      exists o'. split; [reflexivity|].
      destruct o'; simpl in *; lia.
    + eexists. split; [reflexivity|]. simpl. lia.
    + eexists. split; [reflexivity|]. exact I.
Qed.

(** [Decode] always returns. *)
Lemma Decode_returns (rd : bytes) :
  exists o, Decode rd = Some o /\ shrinks true rd o.
Proof.
  unfold Decode. apply ParseRESP_fuel_enough. lia.
Qed.

(** A result obtained with some fuel is the result of [Decode]. *)
Lemma Decode_of_fuel (fuel : nat) (rd : bytes) (o : outcome RESPValue) :
  ParseRESP fuel rd = Some o -> Decode rd = Some o.
Proof.
  intros Hp. destruct (Decode_returns rd) as (o' & Hd & _).
  rewrite Hd. unfold Decode in Hd.
  pose proof (proj1 (ParseRESP_fuel_mono fuel)
                (Nat.max fuel (2 * length rd + 1)) rd o ltac:(lia) Hp) as H1.
  pose proof (proj1 (ParseRESP_fuel_mono (2 * length rd + 1))
                (Nat.max fuel (2 * length rd + 1)) rd o' ltac:(lia) Hd) as H2.
  congruence.
Qed.

Lemma plain_noLF (s : bytes) : forallb plain s = true -> noLF s = true.
Proof.
  unfold noLF. rewrite !forallb_forall. intros Hs c Hin.
  specialize (Hs c Hin). apply negb_true_iff. rewrite eqb_code.
  unfold plain, strings.asciiSpace, between in Hs. change (code LF) with 10%Z.
  lia.
Qed.

(** Reading the header line [c :: h] followed by CR LF. *)
Lemma ReadString_header (c : ascii) (h rest : bytes) :
  noLF (c :: h) = true ->
  bufio.ReadString LF ((c :: h ++ CRLF) ++ rest)
  = Some ((c :: h ++ [CR]) ++ [LF], rest).
Proof.
  intros Hn.
  replace ((c :: h ++ CRLF) ++ rest) with ((c :: h ++ [CR]) ++ LF :: rest).
  - apply ReadString_line. unfold noLF in *. simpl in *.
    rewrite forallb_app. simpl.
    apply andb_prop in Hn as [-> ->]. reflexivity.
  - unfold CRLF. simpl. rewrite <- !app_assoc. reflexivity.
Qed.

Lemma TrimSpace_header (c : ascii) (h : bytes) :
  plain c = true ->
  strings.TrimSpace ((c :: h ++ [CR]) ++ [LF]) = c :: strings.TrimRightSpace h.
Proof.
  intros Hc. simpl. rewrite TrimSpace_line by exact Hc.
  now rewrite TrimRightSpace_snoc.
Qed.

Lemma ReadFull_exact (data rest : bytes) :
  io.ReadFull (data ++ rest) (Z.of_nat (length data)) = inl (data, rest).
Proof.
  unfold io.ReadFull. rewrite length_app.
  destruct (Z.leb_spec (Z.of_nat (length data))
              (Z.of_nat (length data + length rest))); [|lia].
  rewrite Nat2Z.id. rewrite firstn_app, skipn_app, Nat.sub_diag.
  rewrite firstn_all, skipn_all. simpl. now rewrite app_nil_r.
Qed.

Lemma Atoi_Itoa (n : Z) :
  (- 2 ^ 63 <= n < 2 ^ 63)%Z -> strconv.Atoi (strconv.Itoa n) = inl n.
Proof.
  intros Hn. unfold strconv.Atoi, strconv.Itoa.
  now rewrite ParseInt_FormatInt.
Qed.

(** The loop of an Array decodes the encodings of its elements in order. *)
Lemma ParseArray_elements (elems : list RESPValue) :
  Forall (fun v => forall rest, exists fuel,
            ParseRESP fuel (SerializeRESP v ++ rest) = Some (Ok v rest)) elems ->
  forall i acc rest, exists fuel,
    ParseArray fuel i (i + Z.of_nat (length elems)) acc
      (concat (map SerializeRESP elems) ++ rest)
    = Some (Ok (acc ++ elems) rest).
Proof.
  induction 1 as [|v elems Hv _ IH]; intros i acc rest.
  - exists 1. simpl. rewrite Z.add_0_r, Z.ltb_irrefl, app_nil_r. reflexivity.
  - destruct (Hv (concat (map SerializeRESP elems) ++ rest)) as (f1 & H1).
    destruct (IH (i + 1)%Z (acc ++ [v]) rest) as (f2 & H2).
    exists (S (Nat.max f1 f2)).
    cbn [ParseArray map concat length].
    destruct (Z.ltb_spec i (i + Z.of_nat (S (length elems)))); [|lia].
    rewrite <- app_assoc.
    rewrite (proj1 (ParseRESP_fuel_mono f1) (Nat.max f1 f2) _ _ ltac:(lia) H1).
    replace (i + Z.of_nat (S (length elems)))%Z
      with (i + 1 + Z.of_nat (length elems))%Z by lia.
    rewrite (proj2 (ParseRESP_fuel_mono f2) (Nat.max f1 f2) _ _ _ _ _
               ltac:(lia) H2).
    now rewrite <- app_assoc.
Qed.

Ltac split_andb :=
  repeat match goal with
    | H : (_ && _) = true |- _ => apply andb_prop in H; destruct H
    end.

Ltac zero_fields :=
  repeat match goal with
    | H : isNil ?l = true |- _ => destruct l; [clear H|discriminate H]
    | H : negb (makePanics _ _) = true |- _ =>
        apply negb_true_iff, makePanics_false in H
    | H : negb ?b = true |- _ => destruct b; [discriminate H|clear H]
    | H : (?n =? 0)%Z = true |- _ => apply Z.eqb_eq in H; subst n
    end.

Ltac read_header :=
  rewrite ReadString_header
    by (first [assumption
              | apply (plain_noLF (_ :: _)); simpl; apply FormatInt_plain]);
  rewrite TrimSpace_header by reflexivity;
  rewrite ?TrimRightSpace_plain by apply FormatInt_plain.

Lemma roundtrip_fuel (v : RESPValue) :
  wellFormed v = true ->
  forall rest, exists fuel,
    ParseRESP fuel (SerializeRESP v ++ rest) = Some (Ok v rest).
Proof.
  induction v as [type str num isNull array IH] using RESPValue_nested_ind.
  intros Hwf rest. cbn [wellFormed SerializeRESP] in *.
  destruct (Ascii.eqb_spec type RESP_SIMPLE_STRING) as [->|Hss].
  { cbn [orb] in Hwf. unfold lineText in Hwf. split_andb. zero_fields.
    match goal with H : bool_decide _ = true |- _ =>
      apply bool_decide_eq_true in H; rename H into Htrim end.
    exists 1. cbn [ParseRESP]. read_header. rewrite Htrim. reflexivity. }
  destruct (Ascii.eqb_spec type RESP_ERROR) as [->|Her].
  { cbn [orb] in Hwf. unfold lineText in Hwf. split_andb. zero_fields.
    match goal with H : bool_decide _ = true |- _ =>
      apply bool_decide_eq_true in H; rename H into Htrim end.
    exists 1. cbn [ParseRESP]. read_header. rewrite Htrim. reflexivity. }
  cbn [orb] in Hwf.
  destruct (Ascii.eqb_spec type RESP_INTEGER) as [->|Hint].
  { unfold int64 in Hwf. split_andb. zero_fields.
    exists 1. cbn [ParseRESP]. read_header.
    cbn -[strconv.ParseInt64 strconv.FormatInt].
    unfold strconv.ParseInt64. rewrite ParseInt_FormatInt by lia. reflexivity. }
  destruct (Ascii.eqb_spec type RESP_BULK_STRING) as [->|Hbulk].
  { split_andb. zero_fields. exists 1. destruct isNull.
    - zero_fields. vm_compute. reflexivity.
    - zero_fields. cbn [ParseRESP].
      replace ((RESP_BULK_STRING
                  :: strconv.Itoa (Z.of_nat (length str)) ++ CRLF ++ str ++ CRLF)
                 ++ rest)
        with ((RESP_BULK_STRING :: strconv.Itoa (Z.of_nat (length str)) ++ CRLF)
                ++ str ++ CRLF ++ rest)
        by (unfold CRLF; repeat (progress (simpl; rewrite <- ?app_assoc));
            reflexivity).
      read_header.
      cbn -[strconv.Atoi strconv.Itoa io.ReadFull makePanics].
      rewrite Atoi_Itoa by lia.
      destruct (Z.eqb_spec (Z.of_nat (length str)) (-1)); [lia|].
      rewrite (proj2 (makePanics_false _ _)) by lia.
      rewrite ReadFull_exact. reflexivity. }
  destruct (Ascii.eqb_spec type RESP_ARRAY) as [->|Harr]; [|discriminate].
  split_andb. zero_fields.
  assert (Hdec : Forall (fun v => forall rest, exists fuel,
            ParseRESP fuel (SerializeRESP v ++ rest) = Some (Ok v rest)) array).
  { match goal with H : forallb wellFormed array = true |- _ =>
      rewrite forallb_forall in H; rename H into Helems end.
    rewrite List.Forall_forall in *.
    intros v Hin. apply IH; [exact Hin|]. apply Helems. exact Hin. }
  destruct (ParseArray_elements array Hdec 0%Z [] rest) as (fuel & Hloop).
  exists (S fuel). cbn [ParseRESP].
  replace ((RESP_ARRAY :: strconv.Itoa (Z.of_nat (length array)) ++ CRLF
              ++ concat (map SerializeRESP array)) ++ rest)
    with ((RESP_ARRAY :: strconv.Itoa (Z.of_nat (length array)) ++ CRLF)
            ++ concat (map SerializeRESP array) ++ rest)
    by (unfold CRLF; repeat (progress (simpl; rewrite <- ?app_assoc));
        reflexivity).
  read_header.
  cbn -[strconv.Atoi strconv.Itoa ParseArray makePanics].
  rewrite Atoi_Itoa by lia.
  destruct (Z.eqb_spec (Z.of_nat (length array)) (-1)); [lia|].
  rewrite (proj2 (makePanics_false _ _)) by lia.
  rewrite Z.add_0_l in Hloop. rewrite Hloop. reflexivity.
Qed.

Lemma ParseArray_Fail (fuel : nat) (i count : Z) (acc : list RESPValue)
  (rd rd' : bytes) (e : error) :
  ParseArray fuel i count acc rd = Some (Fail e rd') ->
  exists j e', e = FailedArrayElement j e'.
Proof.
  revert i acc rd. induction fuel as [|fuel IH]; intros i acc rd; simpl; [discriminate|].
  destruct (i <? count)%Z; [|discriminate].
  destruct (ParseRESP fuel rd) as [[elem rd1|e1 rd1|]|]; try discriminate.
  - apply IH.
  - intros [= <- <-]. eauto.
Qed.

(** Only the first read of a call reports a bare end of stream. *)
Lemma ParseRESP_EOF (fuel : nat) (rd rd' : bytes) (e : error) :
  ParseRESP fuel rd = Some (Fail e rd') ->
  (e = IoError io.EOF <-> bufio.ReadString LF rd = None).
Proof.
  destruct fuel as [|fuel]; simpl; [discriminate|].
  destruct (bufio.ReadString LF rd) as [[line rd1]|] eqn:Hline.
  - intros Hp. split; [|discriminate]. intros ->. exfalso.
    repeat (break_match_in Hp; try congruence).
    match goal with Ha : ParseArray _ _ _ _ _ = Some (Fail _ _) |- _ =>
      apply ParseArray_Fail in Ha as (j & e' & Ha) end.
    congruence.
  - intros [= <- <-]. tauto.
Qed.

Section ServerFacts.
Context `{GoLib}.

Lemma Error_EOF (e : error) : Error e = B "EOF" <-> e = IoError io.EOF.
Proof.
  destruct e as [[]| | | | | | | |]; simpl; split; intros He;
    try discriminate He; reflexivity.
Qed.

End ServerFacts.

(** ** The round trip, null Arrays and negative lengths *)

(** Claim C1, as amended. For every Value that is well formed in the sense of
    [wellFormed] (the text of a SimpleString or of an Error has no line feed
    and no white space at its end, an Integer is a 64-bit one, a BulkString
    or an Array has a length that [make] accepts, the fields a variant does
    not use are zero, and no Array in it is null; null and empty BulkStrings
    and empty and nested Arrays are included), decoding the bytes
    of [Encode v] yields exactly [v], and leaves unread exactly the bytes that
    followed them. *)
Theorem Decode_Encode_roundtrip (v : RESPValue) :
  wellFormed v = true ->
  Decode (Encode v) = Some (Ok v [])
  /\ forall rest, Decode (Encode v ++ rest) = Some (Ok v rest).
Proof.
  intros Hwf.
  assert (Hrest : forall rest, Decode (Encode v ++ rest) = Some (Ok v rest)).
  { intros rest. destruct (roundtrip_fuel v Hwf rest) as (fuel & Hp).
    exact (Decode_of_fuel _ _ _ Hp). }
  split; [|exact Hrest].
  rewrite <- (app_nil_r (Encode v)). apply Hrest.
Qed.

(** The round trip at a value with every variant in it. *)
Lemma Decode_Encode_roundtrip_witness :
  wellFormed sampleValue = true
  /\ Decode (Encode sampleValue) = Some (Ok sampleValue []).
Proof.
  split; [reflexivity|].
  apply (Decode_Encode_roundtrip sampleValue). reflexivity.
Defined.

(** Claim C1 as stated fails: the encoding of a null Array does not decode to
    a null Array, and a SimpleString that ends in a space does not come back
    with it. *)
Lemma Decode_Encode_not_roundtrip :
  Decode (Encode NullArray) <> Some (Ok NullArray [])
  /\ Decode (Encode (SimpleString (B "OK "))) <> Some (Ok (SimpleString (B "OK ")) []).
Proof.
  split; vm_compute; discriminate.
Qed.

(** Claim C3 at a null Array: [Encode] writes the count 0, as for an empty
    Array, and not the count -1 that the claim states. *)
Theorem Encode_NullArray :
  Encode NullArray = B "*0" ++ CRLF
  /\ Encode NullArray = Encode (ArrayOf [])
  /\ Encode NullArray <> B "*-1" ++ CRLF.
Proof.
  repeat split. vm_compute. discriminate.
Qed.

(** Claim C10 at a header whose length is negative and not -1: the decoder
    panics (at [make]) where the claim states a decode error, on a BulkString
    header and on an Array header. *)
Theorem Decode_negative_length_panics :
  Decode (B "$-2" ++ CRLF) = Some Panic
  /\ Decode (B "*-2" ++ CRLF) = Some Panic.
Proof.
  split; reflexivity.
Qed.

(** ** Lines with a text *)

(** A line made of a tag [+] or [-] and a text. *)
Lemma Decode_tagged_line (tag : ascii) (t rest : bytes) :
  tag = RESP_SIMPLE_STRING \/ tag = RESP_ERROR ->
  noLF t = true ->
  Decode (tag :: t ++ LF :: rest)
  = Some (Ok (withStr (NewRESPValue tag) (strings.TrimRightSpace t)) rest).
Proof.
  intros Htag Hlf. apply (Decode_of_fuel 1). cbn [ParseRESP].
  change (tag :: t ++ LF :: rest) with ((tag :: t) ++ LF :: rest).
  rewrite ReadString_line
    by (simpl; rewrite Hlf; destruct Htag as [-> | ->]; reflexivity).
  change ((tag :: t) ++ [LF]) with (tag :: t ++ [LF]).
  rewrite TrimSpace_line by (destruct Htag as [-> | ->]; reflexivity).
  destruct Htag as [-> | ->]; reflexivity.
Qed.

Lemma noLF_false_split (s : bytes) :
  noLF s = false ->
  exists s1 s2, s = s1 ++ LF :: s2 /\ noLF s1 = true.
Proof.
  induction s as [|c s IH]; simpl; [discriminate|].
  destruct (Ascii.eqb_spec c LF) as [->|Hne]; simpl.
  - intros _. exists [], s. auto.
  - intros Hs. destruct (IH Hs) as (s1 & s2 & -> & Hs1).
    exists (c :: s1), s2. simpl. rewrite Hs1.
    destruct (Ascii.eqb_spec c LF); [contradiction|]. auto.
Qed.

(** The condition on the text of a SimpleString in [wellFormed] is the one
    the round trip needs: no other text comes back. *)
Remark SimpleString_roundtrip_iff (s : bytes) :
  Decode (Encode (SimpleString s)) = Some (Ok (SimpleString s) [])
  <-> lineText s = true.
Proof.
  split.
  - intros Hrt. unfold lineText. destruct (noLF s) eqn:Hlf; simpl.
    + apply bool_decide_eq_true.
      change (Encode (SimpleString s))
        with (RESP_SIMPLE_STRING :: s ++ [CR; LF]) in Hrt.
      replace (s ++ [CR; LF]) with ((s ++ [CR]) ++ LF :: [])
        in Hrt by (rewrite <- app_assoc; reflexivity).
      rewrite Decode_tagged_line in Hrt.
      * rewrite TrimRightSpace_snoc in Hrt by reflexivity.
        injection Hrt as Hs. exact Hs.
      * left; reflexivity.
      * unfold noLF in *. rewrite forallb_app, Hlf. reflexivity.
    + exfalso. destruct (noLF_false_split s Hlf) as (s1 & s2 & -> & Hs1).
      change (Encode (SimpleString (s1 ++ LF :: s2)))
        with (RESP_SIMPLE_STRING :: (s1 ++ LF :: s2) ++ [CR; LF]) in Hrt.
      rewrite <- app_assoc in Hrt. cbn [app] in Hrt.
      rewrite Decode_tagged_line in Hrt by (auto).
      injection Hrt as _ Hrest. destruct s2; discriminate Hrest.
  - intros Hwf.
    assert (Hv : wellFormed (SimpleString s) = true).
    { simpl. rewrite Hwf. reflexivity. }
    destruct (roundtrip_fuel _ Hv []) as (fuel & Hp).
    rewrite app_nil_r in Hp. exact (Decode_of_fuel _ _ _ Hp).
Qed.

(** Claim C7, as amended. For every line that begins with the tag [+] or [-],
    [Decode] returns a SimpleString or an Error whose text is the remainder
    of the line with all the white space at its end removed, the carriage
    return before the line feed included; the text is the remainder byte for
    byte when that does not end in white space. *)
Theorem Decode_line_text (tag : ascii) (t rest : bytes) :
  tag = RESP_SIMPLE_STRING \/ tag = RESP_ERROR ->
  noLF t = true ->
  Decode (tag :: t ++ LF :: rest)
  = Some (Ok (withStr (NewRESPValue tag) (strings.TrimRightSpace t)) rest)
  /\ (forall s, strings.TrimRightSpace s = s -> t = s \/ t = s ++ [CR] ->
        strings.TrimRightSpace t = s).
Proof.
  intros Htag Hlf. split.
  - apply Decode_tagged_line; assumption.
  - intros s Hs [-> | ->]; [exact Hs|].
    rewrite TrimRightSpace_snoc by reflexivity. exact Hs.
Qed.

(** A status line with two spaces before its terminator. *)
Lemma Decode_line_text_witness :
  Decode (B "+OK  " ++ CRLF ++ B "+next")
  = Some (Ok (SimpleString (B "OK")) (B "+next")).
Proof.
  destruct (Decode_line_text RESP_SIMPLE_STRING (B "OK  " ++ [CR]) (B "+next"))
    as [Hd _]; [left; reflexivity | reflexivity | exact Hd].
Defined.

(** Claim C7 as stated fails: the text sent is "OK " and the text decoded
    is "OK". *)
Lemma Decode_line_text_not_verbatim :
  Decode (B "+OK " ++ CRLF) = Some (Ok (SimpleString (B "OK")) [])
  /\ Decode (B "+OK " ++ CRLF) <> Some (Ok (SimpleString (B "OK ")) []).
Proof.
  split; [reflexivity|]. vm_compute. discriminate.
Qed.

(** ** BulkStrings *)




(** ** The dispatcher and the connection loop *)

Section ServerClaims.
Context `{GoLib}.

(** The dispatch scenarios of the specification. *)
Example dispatch_PING (store : gmap bytes bytes) :
  processCommand store (request [B "PING"]) = (SimpleString (B "PONG"), store).
Proof. reflexivity. Qed.

Example dispatch_SET_GET :
  processCommand ∅ (request [B "SET"; B "a"; B "1"])
  = (SimpleString (B "OK"), {[ B "a" := B "1" ]})
  /\ processCommand {[ B "a" := B "1" ]} (request [B "GET"; B "a"])
     = (BulkString (B "1"), {[ B "a" := B "1" ]}).
Proof. split; reflexivity. Qed.

Example dispatch_unknown (store : gmap bytes bytes) :
  processCommand store (request [B "FOO"])
  = (errorResp (B "ERR unknown command 'FOO'"), store).
Proof. reflexivity. Qed.

Example dispatch_lower_case (store : gmap bytes bytes) :
  processCommand store (request [B "ping"]) = (SimpleString (B "PONG"), store).
Proof. reflexivity. Qed.

Example dispatch_not_an_Array (store : gmap bytes bytes) :
  processCommand store (SimpleString (B "PING"))
  = (errorResp (B "ERR Protocol error: expected array"), store).
Proof. reflexivity. Qed.

(** Claim C4, as amended. For an Array ["ECHO", m, ...] with at least one
    argument the dispatcher returns a non-null BulkString with the bytes
    of [m] when [m] is a BulkString, whatever follows [m], and an Error
    when [m] is not a BulkString; for ["ECHO"] alone it returns the Error
    about the wrong number of arguments. *)
Theorem processCommand_ECHO (store : gmap bytes bytes) (m : RESPValue)
  (extra : list RESPValue) :
  processCommand store (ArrayOf (BulkString (B "ECHO") :: m :: extra))
  = (if isBulk m then BulkString (Str m)
     else errorResp
            (B "ERR Protocol error: expected bulk string for echo argument"),
     store)
  /\ processCommand store (ArrayOf [BulkString (B "ECHO")])
     = (errorResp (B "ERR wrong number of arguments for 'echo' command"),
        store).
Proof.
  split; [|reflexivity].
  unfold processCommand, handleEcho. cbn.
  destruct (isBulk m); reflexivity.
Qed.

(** Claim C6. For every store, GET of an absent key returns the null
    BulkString; after SET of a key to the empty string, GET of that key
    returns the BulkString that is not null and has no bytes; the two
    replies differ, and so do their encodings. *)
Theorem GET_absent_or_empty (store : gmap bytes bytes) (k : bytes) :
  store !! k = None ->
  processCommand store (request [B "GET"; k]) = (NullBulkString, store)
  /\ (forall store0, exists store1,
         processCommand store0 (request [B "SET"; k; []])
         = (SimpleString (B "OK"), store1)
         /\ processCommand store1 (request [B "GET"; k])
            = (BulkString [], store1))
  /\ IsNull NullBulkString = true
  /\ IsNull (BulkString []) = false
  /\ Encode NullBulkString <> Encode (BulkString []).
Proof.
  intros Habsent. repeat split.
  - unfold processCommand, handleGet. cbn. rewrite Habsent. reflexivity.
  - intros store0. exists (<[k := []]> store0). split.
    + reflexivity.
    + unfold processCommand, handleGet. cbn.
      rewrite lookup_insert_eq. reflexivity.
  - vm_compute. discriminate.
Qed.

Lemma Decode_EOF (rd : bytes) :
  bufio.ReadString LF rd = None ->
  Decode rd = Some (Fail (IoError io.EOF) []).
Proof.
  intros Hr. apply (Decode_of_fuel 1). simpl. rewrite Hr. reflexivity.
Qed.

(** On an open connection, the end of the stream before a line is read
    closes the connection with nothing written; every other error that
    [Decode] returns is written to the client as an Error value, and the
    loop goes on with the connection open. *)
Lemma handleConnection_decode_error (c : conn) (fuel : nat) :
  state c = OPEN ->
  (bufio.ReadString LF (reader c) = None ->
   handleConnection (S fuel) c = mkConn CLOSED [] (written c) (store c))
  /\ (forall e rd,
        bufio.ReadString LF (reader c) <> None ->
        Decode (reader c) = Some (Fail e rd) ->
        handleConnection (S fuel) c
        = handleConnection fuel
            (mkConn OPEN rd
               (written c ++ Encode (errorResp (B "ERR " ++ Error e)))
               (store c))).
Proof.
  intros Hopen. split.
  - intros Heof. cbn [handleConnection]. rewrite Hopen.
    unfold iteration. rewrite (Decode_EOF _ Heof).
    destruct (decide (Error (IoError io.EOF) = B "EOF")) as [_|Hne].
    + destruct fuel; reflexivity.
    + exfalso. apply Hne. reflexivity.
  - intros e rd Hmore Hdec. cbn [handleConnection]. rewrite Hopen.
    unfold iteration. rewrite Hdec.
    destruct (decide (Error e = B "EOF")) as [He|_]; [|reflexivity].
    exfalso. apply Error_EOF in He. apply Hmore.
    unfold Decode in Hdec. apply (ParseRESP_EOF _ _ _ _ Hdec). exact He.
Qed.

(** Claim C8 at a frame with a bad length, alone or as an element of an
    Array: the decoder panics at [make], so that the loop is left with
    nothing written to the client, where the claim has an Error value sent
    and the loop going on with the connection open. *)
Theorem handleConnection_bad_length_crashes (st : gmap bytes bytes)
  (rest : bytes) (fuel : nat) :
  handleConnection (S fuel) (accept (B "$-2" ++ CRLF ++ rest) st)
  = mkConn CRASHED (B "$-2" ++ CRLF ++ rest) [] st
  /\ handleConnection (S fuel)
       (accept (B "*1" ++ CRLF ++ B "$9223372036854775807" ++ CRLF ++ rest)
          st)
     = mkConn CRASHED
         (B "*1" ++ CRLF ++ B "$9223372036854775807" ++ CRLF ++ rest) []
         st.
Proof.
  assert (H1 : Decode (B "$-2" ++ CRLF ++ rest) = Some Panic)
    by (apply (Decode_of_fuel 1); reflexivity).
  assert (H2 : Decode (B "*1" ++ CRLF ++ B "$9223372036854775807" ++ CRLF
                         ++ rest) = Some Panic)
    by (apply (Decode_of_fuel 3); reflexivity).
  split; cbn [handleConnection accept state]; unfold iteration;
    cbn [reader written store]; rewrite ?H1, ?H2;
    destruct fuel; reflexivity.
Qed.

(** Claim C2 at a client that sends QUIT and then PING: the connection is
    still open after the reply to QUIT, and PING is answered; the
    connection closes at the end of the stream only. *)
Theorem QUIT_keeps_serving (store : gmap bytes bytes) :
  state (iteration (accept quitThenPing store)) = OPEN
  /\ written (iteration (accept quitThenPing store)) = B "+OK" ++ CRLF
  /\ handleConnection 3 (accept quitThenPing store)
     = mkConn CLOSED [] (B "+OK" ++ CRLF ++ B "+PONG" ++ CRLF) store.
Proof.
  repeat split.
Qed.

End ServerClaims.

(** GET of a key on the empty store. *)
Lemma GET_absent_or_empty_witness :
  @processCommand demoLib ∅ (request [B "GET"; B "missing"])
  = (NullBulkString, ∅).
Proof.
  destruct (@GET_absent_or_empty demoLib ∅ (B "missing")) as [Hget _].
  - reflexivity.
  - exact Hget.
Defined.

(** A line with an unknown tag. *)
Lemma handleConnection_decode_error_witness :
  @handleConnection demoLib 1 (accept (B "?" ++ CRLF) ∅)
  = mkConn OPEN [] (B "-ERR unknown RESP type: ?" ++ CRLF) ∅.
Proof.
  destruct (@handleConnection_decode_error demoLib
              (accept (B "?" ++ CRLF) ∅) 0) as [_ Herr]; [reflexivity|].
  rewrite (Herr (UnknownType "?"%char) []); [reflexivity|discriminate|reflexivity].
Defined.

(** Claim C4 as stated fails: ECHO with two arguments is answered with the
    first one, not with an Error. *)
Lemma processCommand_ECHO_extra_argument :
  @processCommand demoLib ∅ (request [B "ECHO"; B "a"; B "b"])
  = (BulkString (B "a"), ∅).
Proof. reflexivity. Qed.

(** ** Two concurrent SETs *)

Module ConcurrentFacts.
Import Concurrent.

Lemma invariant_twoSets (st : gmap bytes bytes) (k v1 v2 : bytes) :
  invariant k v1 v2 (twoSets st k v1 v2).
Proof.
  exists 0, 0. simpl. repeat split; try lia.
Qed.

Ltac upto4 n :=
  destruct n as [|[|[|[|[|n]]]]]; [| | | | |lia].

Lemma skipn_S_cons {A : Type} (n : nat) (l : list A) (x : A) (rest : list A) :
  x :: rest = skipn n l -> rest = skipn (S n) l.
Proof.
  revert l. induction n as [|n IH]; intros l Hl.
  - change (skipn 0 l) with l in Hl. rewrite <- Hl. reflexivity.
  - destruct l as [|y l]; [discriminate|]. apply IH, Hl.
Qed.

Lemma invariant_step (k v1 v2 : bytes) (s s' : system) :
  invariant k v1 v2 s -> step s s' -> invariant k v1 v2 s'.
Proof.
  intros (n1 & n2 & H1 & H2 & Hn1 & Hn2 & Hf & Hr & Hw & Hx & Hwr & Hst) Hstep.
  destruct Hstep as [m m' i rest w2 _ Hexec | m m' i rest w1 _ Hexec];
    destruct m as [st wr [w r] f]; cbn [mem worker1 worker2 store writing
      mutex fatal writer readers] in *.
  - exists (S n1), n2. pose proof (skipn_S_cons _ _ _ _ H1) as Hrest.
    upto4 n1; simpl in H1; try discriminate H1;
      injection H1 as Hi _; subst i; upto4 n2; simpl in *; subst;
      try discriminate; injection Hexec as <-; simpl;
      repeat split; try lia; try reflexivity; try assumption;
      try (intros _; rewrite ?lookup_insert_eq; auto; fail);
      try (intros [?|?]; try lia; apply Hst; lia).
  - exists n1, (S n2). pose proof (skipn_S_cons _ _ _ _ H2) as Hrest.
    upto4 n2; simpl in H2; try discriminate H2;
      injection H2 as Hi _; subst i; upto4 n1; simpl in *; subst;
      try discriminate; injection Hexec as <-; simpl;
      repeat split; try lia; try reflexivity; try assumption;
      try (intros _; rewrite ?lookup_insert_eq; auto; fail);
      try (intros [?|?]; try lia; apply Hst; lia).
Qed.

Lemma invariant_reachable (st : gmap bytes bytes) (k v1 v2 : bytes) (s : system) :
  rtc step (twoSets st k v1 v2) s -> invariant k v1 v2 s.
Proof.
  revert s. apply rtc_ind_r.
  - apply invariant_twoSets.
  - intros s1 s2 _ Hstep IH. eapply invariant_step; eassumption.
Qed.

Lemma inCritical_skipn (k v : bytes) (n : nat) :
  inCritical (skipn n (handleSet_code k v)) = critical n.
Proof.
  destruct n as [|[|[|[|[|n]]]]]; reflexivity.
Qed.

(** A worker that has steps left can take one unless the other one holds the
    mutex, and then the other one can. *)
Lemma invariant_progress (k v1 v2 : bytes) (s : system) :
  invariant k v1 v2 s -> finished s = true \/ exists s', step s s'.
Proof.
  intros (n1 & n2 & H1 & H2 & Hn1 & Hn2 & Hf & Hr & Hw & Hx & Hwr & Hst).
  destruct s as [[st wr [w r] f] w1 w2];
    cbn [mem worker1 worker2 store writing mutex fatal writer readers] in *.
  subst.
  upto4 n1; upto4 n2; simpl in *; try discriminate; auto; right;
    first [ eexists; apply step_worker1; [reflexivity|reflexivity]
          | eexists; apply step_worker2; [reflexivity|reflexivity] ].
Qed.

Lemma step_shorter (s s' : system) :
  step s s' ->
  length (worker1 s') + length (worker2 s')
  < length (worker1 s) + length (worker2 s).
Proof.
  intros [m m' i rest w2 _ _ | m m' i rest w1 _ _]; simpl; lia.
Qed.

(** From wherever the two workers are, both can finish. *)
Lemma invariant_completes (k v1 v2 : bytes) (s : system) :
  invariant k v1 v2 s -> exists s', rtc step s s' /\ finished s' = true.
Proof.
  remember (length (worker1 s) + length (worker2 s)) as n eqn:Hn.
  revert s Hn. induction n as [n IH] using lt_wf_ind. intros s Hn Hinv.
  destruct (invariant_progress _ _ _ _ Hinv) as [Hfin | [s1 Hstep]].
  - exists s. split; [apply rtc_refl|exact Hfin].
  - pose proof (step_shorter _ _ Hstep) as Hlt.
    destruct (IH _ ltac:(subst n; exact Hlt) s1 eq_refl
                (invariant_step _ _ _ _ _ Hinv Hstep)) as (s' & Hrun & Hfin).
    exists s'. split; [|exact Hfin]. eapply rtc_l; eassumption.
Qed.

Section ConcurrentClaims.
Context `{GoLib}.

(** Claim C9. Two workers run handleSet for the same key with the values
    [v1] and [v2]. In every state the scheduler can reach, the runtime has
    not stopped the process, at most one worker is between Lock and Unlock,
    and an assignment to the map is under way only inside that region; when
    both workers are done the store maps the key to [v1] or to [v2], and
    GET of the key returns that value; and both workers can always get
    done. *)
Theorem concurrent_SET_SET (st : gmap bytes bytes) (k v1 v2 : bytes)
  (s : system) :
  rtc step (twoSets st k v1 v2) s ->
  fatal (mem s) = false
  /\ inCritical (worker1 s) && inCritical (worker2 s) = false
  /\ (writing (mem s) = true ->
      xorb (inCritical (worker1 s)) (inCritical (worker2 s)) = true)
  /\ (finished s = true ->
      exists v, (v = v1 \/ v = v2)
        /\ store (mem s) !! k = Some v
        /\ processCommand (store (mem s)) (request [B "GET"; k])
           = (BulkString v, store (mem s)))
  /\ exists s', rtc step s s' /\ finished s' = true.
Proof.
  intros Hrun. pose proof (invariant_reachable _ _ _ _ _ Hrun) as Hinv.
  pose proof (invariant_completes _ _ _ _ Hinv) as Hdone.
  destruct Hinv
    as (n1 & n2 & H1 & H2 & Hn1 & Hn2 & Hf & Hr & Hw & Hx & Hwr & Hst).
  rewrite H1, H2, !inCritical_skipn.
  repeat split; try assumption.
  - intros Hwriting. rewrite Hwriting in Hwr.
    upto4 n1; upto4 n2; simpl in *; first [discriminate | reflexivity].
  - intros Hfin. unfold finished in Hfin. rewrite H1, H2 in Hfin.
    assert (Hn : n1 = 4 /\ n2 = 4).
    { upto4 n1; upto4 n2; simpl in Hfin; try discriminate; auto. }
    destruct Hn as [-> ->].
    assert (Hv : exists v, (v = v1 \/ v = v2) /\ store (mem s) !! k = Some v).
    { destruct Hst as [Hv|Hv]; [lia| |]; eauto. }
    destruct Hv as (v & Hv & Hk). exists v. repeat split; try assumption.
    unfold processCommand, handleGet. cbn. rewrite Hk. reflexivity.
Qed.

End ConcurrentClaims.

(** The run in which the first worker finishes before the second starts. *)
Lemma concurrent_SET_SET_witness :
  exists v, (v = B "1" \/ v = B "2")
    /\ (<[B "k" := B "2"]> (<[B "k" := B "1"]> (∅ : gmap bytes bytes)))
         !! B "k" = Some v.
Proof.
  destruct (@concurrent_SET_SET demoLib ∅ (B "k") (B "1") (B "2")
              (mkSystem
                 (mkShared (<[B "k" := B "2"]> (<[B "k" := B "1"]> ∅))
                    false (mkRWMutex false 0) false) [] []))
    as (_ & _ & _ & Hget & _).
  - unfold twoSets, handleSet_code.
    do 4 (eapply rtc_l; [apply step_worker1; reflexivity|]).
    do 4 (eapply rtc_l; [apply step_worker2; reflexivity|]).
    apply rtc_refl.
  - destruct (Hget eq_refl) as (v & Hv & Hk & _). exists v. split; assumption.
Defined.

(** Without the mutex, two assignments to the map can overlap, and the
    runtime stops the process. *)
Remark unlocked_writers_crash (m : shared) (k v1 v2 : bytes) :
  fatal m = false -> writing m = false ->
  exists s,
    rtc step (mkSystem m [AssignBegin; AssignEnd k v1]
                [AssignBegin; AssignEnd k v2]) s
    /\ fatal (mem s) = true.
Proof.
  intros Hf Hw. destruct m as [st wr mu f]. simpl in *. subst.
  eexists. split.
  - eapply rtc_l; [apply step_worker1; reflexivity|].
    eapply rtc_l; [apply step_worker2; reflexivity|].
    apply rtc_refl.
  - reflexivity.
Qed.

End ConcurrentFacts.

(** * Further properties *)

(** ** What the decoder consumes *)

Lemma ReadString_suffix (rd line rest : bytes) :
  bufio.ReadString LF rd = Some (line, rest) -> rd = line ++ rest.
Proof.
  intros Hr. apply ReadString_Some in Hr as (s & _ & -> & ->).
  now rewrite <- app_assoc.
Qed.

Lemma ReadFull_suffix (rd : bytes) (n : Z) (data rd' : bytes) :
  io.ReadFull rd n = inl (data, rd') -> rd = data ++ rd'.
Proof.
  unfold io.ReadFull. destruct (n <=? Z.of_nat (length rd))%Z.
  - intros [= <- <-]. symmetry. apply firstn_skipn.
  - destruct rd; discriminate.
Qed.

Lemma ParseRESP_unread (fuel : nat) :
  (forall rd o rest, ParseRESP fuel rd = Some o -> unread o = Some rest ->
     rest `suffix_of` rd)
  /\ (forall i count acc rd o rest,
        ParseArray fuel i count acc rd = Some o -> unread o = Some rest ->
        rest `suffix_of` rd).
Proof.
  induction fuel as [|fuel [IHv IHa]]; [split; intros; discriminate|].
  split.
  - intros rd o rest Hp Hu. simpl in Hp.
    destruct (bufio.ReadString LF rd) as [[line rd1]|] eqn:Hline.
    2:{ injection Hp as <-. injection Hu as <-. apply suffix_nil. }
    assert (H1 : rd1 `suffix_of` rd).
    { exists line. apply ReadString_suffix, Hline. }
    repeat (break_match_in Hp; try congruence);
      injection Hp as <-; simpl in Hu; try discriminate Hu;
      injection Hu as <-; try exact H1; try apply suffix_nil.
    + match goal with
      | Hr : io.ReadFull _ _ = inl _, Hs : bufio.ReadString LF _ = Some _ |- _ =>
          apply ReadFull_suffix in Hr; apply ReadString_suffix in Hs
      end.
      etrans; [|exact H1]. subst. eexists (_ ++ _). now rewrite <- app_assoc.
    + etrans; [|exact H1]. eapply IHa; [eassumption|reflexivity].
    + etrans; [|exact H1]. eapply IHa; [eassumption|reflexivity].
  - intros i count acc rd o rest Hp Hu. simpl in Hp.
    destruct (i <? count)%Z.
    2:{ injection Hp as <-. injection Hu as <-. reflexivity. }
    destruct (ParseRESP fuel rd) as [[elem rd1|e rd1|]|] eqn:Hv; try discriminate.
    + etrans; [eapply IHa; eassumption|]. eapply IHv; [eassumption|reflexivity].
    + injection Hp as <-. injection Hu as <-.
      eapply IHv; [eassumption|reflexivity].
    + injection Hp as <-. discriminate.
Qed.

(** ** Where the decoder panics *)

Lemma hasRefusedHeader_here (rd line rd1 : bytes) :
  bufio.ReadString LF rd = Some (line, rd1) -> refusedHeader line = true ->
  hasRefusedHeader rd.
Proof.
  intros Hline Href. pose proof (ReadString_suffix _ _ _ Hline) as Hrd.
  exists [], line, rd1. rewrite <- Hrd. auto.
Qed.

Lemma hasRefusedHeader_suffix (rd rd1 : bytes) :
  rd1 `suffix_of` rd -> hasRefusedHeader rd1 -> hasRefusedHeader rd.
Proof.
  intros (p & ->) (before & line & after & -> & Hline & Href).
  exists (p ++ before), line, after. rewrite <- app_assoc. auto.
Qed.

Lemma refusedHeader_BulkString (line text : bytes) (n : Z) :
  strings.TrimSpace line = RESP_BULK_STRING :: text ->
  strconv.Atoi text = inl n -> (n =? -1)%Z = false -> makePanics 1 n = true ->
  refusedHeader line = true.
Proof.
  intros Htrim Hn Hnull Hmk. unfold refusedHeader.
  rewrite Htrim. cbn [Ascii.eqb RESP_BULK_STRING].
  change (Ascii.eqb RESP_BULK_STRING RESP_BULK_STRING) with true.
  cbn iota. now rewrite Hn, Hnull, Hmk.
Qed.

Lemma refusedHeader_Array (line text : bytes) (n : Z) :
  strings.TrimSpace line = RESP_ARRAY :: text ->
  strconv.Atoi text = inl n -> (n =? -1)%Z = false -> makePanics 8 n = true ->
  refusedHeader line = true.
Proof.
  intros Htrim Hn Hnull Hmk. unfold refusedHeader.
  rewrite Htrim.
  change (Ascii.eqb RESP_ARRAY RESP_BULK_STRING) with false.
  change (Ascii.eqb RESP_ARRAY RESP_ARRAY) with true.
  cbn iota. now rewrite Hn, Hnull, Hmk.
Qed.

(** A panic comes from a header that [make] refuses. *)
Lemma ParseRESP_panic (fuel : nat) :
  (forall rd, ParseRESP fuel rd = Some Panic -> hasRefusedHeader rd)
  /\ (forall i count acc rd,
        ParseArray fuel i count acc rd = Some Panic -> hasRefusedHeader rd).
Proof.
  induction fuel as [|fuel [IHv IHa]]; [split; intros; discriminate|].
  split.
  - intros rd Hp. simpl in Hp.
    destruct (bufio.ReadString LF rd) as [[line rd1]|] eqn:Hline;
      [|discriminate].
    destruct (strings.TrimSpace line) as [|tag text] eqn:Htrim;
      [discriminate|].
    destruct (Ascii.eqb tag RESP_SIMPLE_STRING); [discriminate|].
    destruct (Ascii.eqb tag RESP_ERROR); [discriminate|].
    destruct (Ascii.eqb tag RESP_INTEGER).
    { destruct (strconv.ParseInt64 text); discriminate. }
    destruct (Ascii.eqb_spec tag RESP_BULK_STRING) as [->|_].
    { destruct (strconv.Atoi text) as [n|] eqn:Hn; [|discriminate].
      destruct (n =? -1)%Z eqn:Hnull; [discriminate|].
      destruct (makePanics 1 n) eqn:Hmk.
      - eapply hasRefusedHeader_here; [exact Hline|].
        eapply refusedHeader_BulkString; eassumption.
      - destruct (io.ReadFull rd1 n) as [[data rd2]|]; [|discriminate].
        destruct (bufio.ReadString LF rd2) as [[? ?]|]; discriminate. }
    destruct (Ascii.eqb_spec tag RESP_ARRAY) as [->|_]; [|discriminate].
    destruct (strconv.Atoi text) as [n|] eqn:Hn; [|discriminate].
    destruct (n =? -1)%Z eqn:Hnull; [discriminate|].
    destruct (makePanics 8 n) eqn:Hmk.
    + eapply hasRefusedHeader_here; [exact Hline|].
      eapply refusedHeader_Array; eassumption.
    + destruct (ParseArray fuel 0 n [] rd1) as [[elems rd2|e rd2|]|] eqn:Ha;
        try discriminate.
      apply hasRefusedHeader_suffix with rd1; [|eapply IHa, Ha].
      exists line. apply ReadString_suffix, Hline.
  - intros i count acc rd Hp. simpl in Hp.
    destruct (i <? count)%Z; [|discriminate].
    destruct (ParseRESP fuel rd) as [[elem rd1|e rd1|]|] eqn:Hv;
      try discriminate.
    + apply hasRefusedHeader_suffix with rd1; [|eapply IHa, Hp].
      eapply (proj1 (ParseRESP_unread fuel)); [exact Hv|reflexivity].
    + apply IHv, Hv.
Qed.

(** A refused header at the head of the stream panics. *)
Lemma Decode_refused_header (rd line rd1 : bytes) :
  bufio.ReadString LF rd = Some (line, rd1) -> refusedHeader line = true ->
  Decode rd = Some Panic.
Proof.
  intros Hline Href. apply (Decode_of_fuel 1). cbn [ParseRESP].
  rewrite Hline. unfold refusedHeader in Href.
  destruct (strings.TrimSpace line) as [|tag text]; [discriminate|].
  destruct (Ascii.eqb_spec tag RESP_BULK_STRING) as [->|Hbulk].
  { change (Ascii.eqb RESP_BULK_STRING RESP_SIMPLE_STRING) with false.
    change (Ascii.eqb RESP_BULK_STRING RESP_ERROR) with false.
    change (Ascii.eqb RESP_BULK_STRING RESP_INTEGER) with false.
    change (Ascii.eqb RESP_BULK_STRING RESP_BULK_STRING) with true.
    cbn iota zeta.
    destruct (strconv.Atoi text) as [n|]; [|discriminate].
    apply andb_prop in Href as [Hnull Hmk].
    apply negb_true_iff in Hnull. now rewrite Hnull, Hmk. }
  destruct (Ascii.eqb_spec tag RESP_ARRAY) as [->|_]; [|discriminate].
  change (Ascii.eqb RESP_ARRAY RESP_SIMPLE_STRING) with false.
  change (Ascii.eqb RESP_ARRAY RESP_ERROR) with false.
  change (Ascii.eqb RESP_ARRAY RESP_INTEGER) with false.
  change (Ascii.eqb RESP_ARRAY RESP_BULK_STRING) with false.
  change (Ascii.eqb RESP_ARRAY RESP_ARRAY) with true.
  cbn iota zeta.
  destruct (strconv.Atoi text) as [n|]; [|discriminate].
  apply andb_prop in Href as [Hnull Hmk].
  apply negb_true_iff in Hnull. now rewrite Hnull, Hmk.
Qed.


(** Property X7. [Decode] panics when the line at the head of the stream is
    the header of a BulkString or of an Array that declares a length, other
    than -1, that [make] refuses: a negative one, or more than [maxAlloc]
    bytes of elements. It panics only on a stream with such a line in it. *)
Theorem Decode_panics_on_refused_header (rd : bytes) :
  (forall line rd1,
      bufio.ReadString LF rd = Some (line, rd1) -> refusedHeader line = true ->
      Decode rd = Some Panic)
  /\ (Decode rd = Some Panic -> hasRefusedHeader rd).
Proof.
  split.
  - intros line rd1. apply Decode_refused_header.
  - unfold Decode. apply ParseRESP_panic.
Qed.

(** ** Facts about trimming *)

Lemma TrimLeftSpace_suffix (s : bytes) : strings.TrimLeftSpace s `suffix_of` s.
Proof.
  assert (Hn : forall n s, length s <= n ->
            strings.TrimLeftSpace s `suffix_of` s).
  { clear s. induction n as [|n IH]; intros s Hlen.
    - destruct s; [reflexivity|simpl in Hlen; lia].
    - destruct s as [|b0 [|b1 [|b2 s]]]; simpl in *.
      + reflexivity.
      + destruct (strings.asciiSpace b0); [apply suffix_nil|reflexivity].
      + destruct (strings.asciiSpace b0).
        * apply suffix_cons_r.
          destruct (strings.asciiSpace b1); [apply suffix_nil|reflexivity].
        * destruct (strings.space2 b0 b1); [apply suffix_nil|reflexivity].
      + destruct (strings.asciiSpace b0).
        * apply suffix_cons_r. apply (IH (b1 :: b2 :: s)). simpl. lia.
        * destruct (strings.space2 b0 b1).
          { do 2 apply suffix_cons_r. apply (IH (b2 :: s)). simpl. lia. }
          destruct (strings.space3 b0 b1 b2); [|reflexivity].
          do 3 apply suffix_cons_r. apply IH. lia. }
  apply (Hn (length s)). lia.
Qed.

Lemma dropSpaceRev_suffix (r : bytes) : strings.dropSpaceRev r `suffix_of` r.
Proof.
  assert (Hn : forall n r, length r <= n ->
            strings.dropSpaceRev r `suffix_of` r).
  { clear r. induction n as [|n IH]; intros r Hlen.
    - destruct r; [reflexivity|simpl in Hlen; lia].
    - destruct r as [|b0 [|b1 [|b2 r]]]; simpl in *.
      + reflexivity.
      + destruct (strings.asciiSpace b0); [apply suffix_nil|reflexivity].
      + destruct (strings.asciiSpace b0).
        * apply suffix_cons_r.
          destruct (strings.asciiSpace b1); [apply suffix_nil|reflexivity].
        * destruct (strings.space2 b1 b0); [apply suffix_nil|reflexivity].
      + destruct (strings.asciiSpace b0).
        * apply suffix_cons_r. apply (IH (b1 :: b2 :: r)). simpl. lia.
        * destruct (strings.space2 b1 b0).
          { do 2 apply suffix_cons_r. apply (IH (b2 :: r)). simpl. lia. }
          destruct (strings.space3 b2 b1 b0); [|reflexivity].
          do 3 apply suffix_cons_r. apply IH. lia. }
  apply (Hn (length r)). lia.
Qed.

(** Trimming stops where there is nothing left to trim. *)
Lemma dropSpaceRev_idem (r : bytes) :
  strings.dropSpaceRev (strings.dropSpaceRev r) = strings.dropSpaceRev r.
Proof.
  assert (Hn : forall n r, length r <= n ->
            strings.dropSpaceRev (strings.dropSpaceRev r)
            = strings.dropSpaceRev r).
  { clear r. induction n as [|n IH]; intros r Hlen.
    - destruct r; [reflexivity|simpl in Hlen; lia].
    - destruct r as [|b0 [|b1 [|b2 r]]].
      + reflexivity.
      + simpl. destruct (strings.asciiSpace b0) eqn:E0; [reflexivity|].
        simpl. now rewrite E0.
      + simpl. destruct (strings.asciiSpace b0) eqn:E0.
        * destruct (strings.asciiSpace b1) eqn:E1; [reflexivity|].
          simpl. now rewrite E1.
        * destruct (strings.space2 b1 b0) eqn:E2; [reflexivity|].
          simpl. now rewrite E0, E2.
      + change (strings.dropSpaceRev (b0 :: b1 :: b2 :: r))
          with (if strings.asciiSpace b0
                then strings.dropSpaceRev (b1 :: b2 :: r)
                else if strings.space2 b1 b0
                     then strings.dropSpaceRev (b2 :: r)
                     else if strings.space3 b2 b1 b0
                          then strings.dropSpaceRev r
                          else b0 :: b1 :: b2 :: r).
        simpl in Hlen.
        destruct (strings.asciiSpace b0) eqn:E0; [apply IH; simpl; lia|].
        destruct (strings.space2 b1 b0) eqn:E2; [apply IH; simpl; lia|].
        destruct (strings.space3 b2 b1 b0) eqn:E3; [apply IH; lia|].
        simpl. now rewrite E0, E2, E3. }
  apply (Hn (length r)). lia.
Qed.

Lemma TrimRightSpace_idem (s : bytes) :
  strings.TrimRightSpace (strings.TrimRightSpace s) = strings.TrimRightSpace s.
Proof.
  unfold strings.TrimRightSpace. rewrite rev_involutive.
  now rewrite dropSpaceRev_idem.
Qed.

Lemma TrimRightSpace_prefix (s : bytes) :
  strings.TrimRightSpace s `prefix_of` s.
Proof.
  unfold strings.TrimRightSpace.
  destruct (dropSpaceRev_suffix (rev s)) as (k & Hk).
  exists (rev k). apply (f_equal (@rev ascii)) in Hk.
  rewrite rev_involutive, rev_app_distr in Hk. exact Hk.
Qed.

Lemma noLF_app (s t : bytes) : noLF (s ++ t) = noLF s && noLF t.
Proof. apply forallb_app. Qed.

(** The trimmed line, for a line as [ReadString] returns it. *)
Lemma TrimSpace_line_noLF (s : bytes) :
  noLF s = true ->
  noLF (strings.TrimSpace (s ++ [LF])) = true
  /\ strings.TrimRightSpace (strings.TrimSpace (s ++ [LF]))
     = strings.TrimSpace (s ++ [LF]).
Proof.
  intros Hs. split; [|apply TrimRightSpace_idem].
  unfold strings.TrimSpace.
  destruct (TrimLeftSpace_suffix (s ++ [LF])) as (p & Hp).
  destruct (strings.TrimLeftSpace (s ++ [LF])) as [|c u] eqn:Hu using rev_ind.
  - reflexivity.
  - clear IHu. rewrite app_assoc in Hp. apply app_inj_tail in Hp as [Hs' <-].
    rewrite TrimRightSpace_snoc by reflexivity.
    destruct (TrimRightSpace_prefix u) as (q & Hq).
    rewrite Hs', Hq, !noLF_app in Hs.
    apply andb_prop in Hs as [_ Hs]. apply andb_prop in Hs as [Hs _]. exact Hs.
Qed.

(** ** What the decoder returns *)

Lemma ParseUint_loop_nonneg (s : bytes) (n m : Z) :
  (0 <= n)%Z -> strconv.ParseUint_loop n s = inl m -> (0 <= m)%Z.
Proof.
  revert n. induction s as [|c s IH]; intros n Hn; simpl.
  - intros [= <-]. exact Hn.
  - unfold strconv.digit_val, between.
    destruct ((48 <=? code c)%Z && (code c <=? 57)%Z) eqn:Hd; [|discriminate].
    destruct (n >=? strconv.cutoff)%Z; [discriminate|].
    destruct (n * 10 + (code c - 48) >? strconv.maxUint64)%Z; [discriminate|].
    apply IH. lia.
Qed.

(** [ParseInt] returns 64-bit integers only. *)
Lemma ParseInt_int64 (s : bytes) (n : Z) :
  strconv.ParseInt s = inl n -> (- 2 ^ 63 <= n < 2 ^ 63)%Z.
Proof.
  unfold strconv.ParseInt. destruct s as [|c s]; [discriminate|].
  set (body := if Ascii.eqb c "+" || Ascii.eqb c "-" then s else c :: s).
  destruct (strconv.ParseUint body) as [un|e] eqn:Hu; [|discriminate].
  assert (Hun : (0 <= un)%Z).
  { unfold strconv.ParseUint in Hu. destruct body; [discriminate|].
    eapply ParseUint_loop_nonneg; [|exact Hu]. lia. }
  destruct (Ascii.eqb c "-"); simpl.
  - destruct (Z.gtb_spec un (2 ^ 63)); [discriminate|]. intros [= <-]. lia.
  - destruct (Z.geb_spec un (2 ^ 63)); [discriminate|]. intros [= <-]. lia.
Qed.

Lemma Atoi_int64 (s : bytes) (n : Z) :
  strconv.Atoi s = inl n -> (- 2 ^ 63 <= n < 2 ^ 63)%Z.
Proof.
  unfold strconv.Atoi. destruct (strconv.ParseInt s) eqn:Hp; [|discriminate].
  intros [= <-]. apply ParseInt_int64 with s, Hp.
Qed.

Lemma ReadFull_length (rd : bytes) (n : Z) (data rd' : bytes) :
  (0 <= n)%Z -> io.ReadFull rd n = inl (data, rd') ->
  Z.of_nat (length data) = n.
Proof.
  intros Hn. unfold io.ReadFull.
  destruct (Z.leb_spec n (Z.of_nat (length rd))).
  - intros [= <- <-]. rewrite length_firstn. lia.
  - destruct rd; discriminate.
Qed.

Lemma decoded_line (tag : ascii) (s rest : bytes) :
  Ascii.eqb tag RESP_SIMPLE_STRING || Ascii.eqb tag RESP_ERROR = true ->
  noLF s = true -> strings.TrimSpace (s ++ [LF]) = tag :: rest ->
  lineText rest = true.
Proof.
  intros Htag Hs Htrim. destruct (TrimSpace_line_noLF s Hs) as [Hlf Hfix].
  rewrite Htrim in Hlf, Hfix. unfold lineText.
  assert (Hp : plain tag = true).
  { apply orb_prop in Htag as [Ht|Ht]; apply Ascii.eqb_eq in Ht; subst;
      reflexivity. }
  rewrite TrimRightSpace_cons in Hfix by exact Hp.
  injection Hfix as Hfix. simpl in Hlf. apply andb_prop in Hlf as [_ ->].
  simpl. apply bool_decide_eq_true. exact Hfix.
Qed.

Lemma ParseRESP_decoded (fuel : nat) :
  (forall rd v rest, ParseRESP fuel rd = Some (Ok v rest) -> decoded v = true)
  /\ (forall i count acc rd elems rest,
        ParseArray fuel i count acc rd = Some (Ok elems rest) ->
        forallb decoded acc = true ->
        forallb decoded elems = true
        /\ (Z.of_nat (length elems)
            = Z.of_nat (length acc) + Z.max 0 (count - i))%Z).
Proof.
  induction fuel as [|fuel [IHv IHa]]; [split; intros; discriminate|].
  split.
  - intros rd v rest Hp. simpl in Hp.
    destruct (bufio.ReadString LF rd) as [[line rd1]|] eqn:Hline;
      [|discriminate].
    apply ReadString_Some in Hline as (s & Hs & -> & _).
    destruct (strings.TrimSpace (s ++ [LF])) as [|tag text] eqn:Htrim;
      [discriminate|].
    destruct (Ascii.eqb tag RESP_SIMPLE_STRING) eqn:E1.
    { injection Hp as <- _. simpl. rewrite E1. simpl.
      rewrite (decoded_line tag s text); auto. now rewrite E1. }
    destruct (Ascii.eqb tag RESP_ERROR) eqn:E2.
    { injection Hp as <- _. simpl. rewrite E1, E2. simpl.
      rewrite (decoded_line tag s text); auto. now rewrite E1, E2. }
    destruct (Ascii.eqb tag RESP_INTEGER) eqn:E3.
    { unfold strconv.ParseInt64 in Hp.
      destruct (strconv.ParseInt text) as [num|] eqn:Hnum; [|discriminate].
      injection Hp as <- _. apply ParseInt_int64 in Hnum.
      simpl. rewrite E1, E2, E3. simpl. unfold int64.
      destruct (Z.leb_spec (- 2 ^ 63) num); [|lia].
      destruct (Z.ltb_spec num (2 ^ 63)); [reflexivity|lia]. }
    destruct (Ascii.eqb tag RESP_BULK_STRING) eqn:E4.
    { destruct (strconv.Atoi text) as [n|] eqn:Hn; [|discriminate].
      apply Atoi_int64 in Hn.
      destruct (n =? -1)%Z.
      { injection Hp as <- _. simpl. now rewrite E1, E2, E3, E4. }
      destruct (makePanics 1 n) eqn:Hmk; [discriminate|].
      destruct (io.ReadFull rd1 n) as [[data rd2]|] eqn:Hfull; [|discriminate].
      destruct (bufio.ReadString LF rd2) as [[? rd3]|]; [|discriminate].
      injection Hp as <- _. apply ReadFull_length in Hfull.
      2:{ apply makePanics_false in Hmk. lia. }
      simpl. rewrite E1, E2, E3, E4. simpl. now rewrite Hfull, Hmk. }
    destruct (Ascii.eqb tag RESP_ARRAY) eqn:E5; [|discriminate].
    destruct (strconv.Atoi text) as [n|] eqn:Hn; [|discriminate].
    apply Atoi_int64 in Hn.
    destruct (n =? -1)%Z.
    { injection Hp as <- _. simpl. now rewrite E1, E2, E3, E4, E5. }
    destruct (makePanics 8 n) eqn:Hmk; [discriminate|].
    destruct (ParseArray fuel 0 n [] rd1) as [[elems rd2|e rd2|]|] eqn:Ha;
      try discriminate.
    injection Hp as <- _.
    destruct (IHa _ _ _ _ _ _ Ha eq_refl) as [Helems Hlen].
    simpl. rewrite E1, E2, E3, E4, E5. simpl. rewrite Helems.
    simpl in Hlen.
    replace (Z.of_nat (length elems)) with n
      by (apply makePanics_false in Hmk; lia).
    now rewrite Hmk.
  - intros i count acc rd elems rest Hp Hacc. simpl in Hp.
    destruct (Z.ltb_spec i count).
    2:{ injection Hp as <- _. split; [exact Hacc|lia]. }
    destruct (ParseRESP fuel rd) as [[elem rd1|e rd1|]|] eqn:Hv;
      try discriminate.
    apply IHa in Hp.
    + destruct Hp as [Helems Hlen]. split; [exact Helems|].
      rewrite length_app in Hlen. simpl in Hlen. lia.
    + rewrite forallb_app, Hacc. simpl. now rewrite (IHv _ _ _ Hv).
Qed.

Lemma wellFormed_decoded (v : RESPValue) :
  decoded v = true -> hasNullArray v = false -> wellFormed v = true.
Proof.
  induction v as [type str num isNull array IH] using RESPValue_nested_ind.
  cbn [decoded hasNullArray wellFormed].
  destruct (Ascii.eqb type RESP_SIMPLE_STRING || Ascii.eqb type RESP_ERROR);
    [auto|].
  destruct (Ascii.eqb type RESP_INTEGER); [auto|].
  destruct (Ascii.eqb type RESP_BULK_STRING); [auto|].
  destruct (Ascii.eqb type RESP_ARRAY); [|auto].
  intros Hd Hn. simpl in Hn. apply orb_false_elim in Hn as [-> Hn].
  simpl. apply andb_prop in Hd as [-> Hd]. apply andb_prop in Hd as [-> Hd].
  simpl. rewrite forallb_forall in *. rewrite List.Forall_forall in IH.
  intros x Hx. apply IH; [exact Hx|apply Hd, Hx|].
  destruct (hasNullArray x) eqn:E; [|reflexivity].
  assert (existsb hasNullArray array = true); [|congruence].
  apply existsb_exists. eauto.
Qed.

(** Property X2. Every value that [Decode] returns is well formed but for
    null Arrays: the text of a SimpleString or an Error has no line feed and
    no white space at its end, an Integer is a 64-bit one, a null BulkString
    or Array has no payload, a length is one that [make] accepts, the fields
    a variant does not use are zero, and so for the elements of an Array. *)
Theorem Decode_returns_decoded (rd : bytes) (v : RESPValue) (rest : bytes) :
  Decode rd = Some (Ok v rest) -> decoded v = true.
Proof.
  unfold Decode. apply ParseRESP_decoded.
Qed.

(** Property X3. A value that [Decode] returns and that has no null Array in
    it decodes from its own encoding, with whatever follows left unread. *)
Theorem Decode_value_roundtrips (rd : bytes) (v : RESPValue) (rest : bytes) :
  Decode rd = Some (Ok v rest) -> hasNullArray v = false ->
  forall rest', Decode (Encode v ++ rest') = Some (Ok v rest').
Proof.
  intros Hd Hn rest'.
  assert (Hwf : wellFormed v = true).
  { apply wellFormed_decoded; [|exact Hn].
    unfold Decode in Hd. eapply ParseRESP_decoded, Hd. }
  destruct (roundtrip_fuel v Hwf rest') as (fuel & Hp).
  exact (Decode_of_fuel _ _ _ Hp).
Qed.

(** ** Framing *)

(** Property X4. The encodings of well-formed values are uniquely decodable:
    two encodings, each followed by any bytes, that make the same stream are
    encodings of the same value, followed by the same bytes. *)
Theorem Encode_uniquely_decodable (v1 v2 : RESPValue) (rest1 rest2 : bytes) :
  wellFormed v1 = true -> wellFormed v2 = true ->
  Encode v1 ++ rest1 = Encode v2 ++ rest2 ->
  v1 = v2 /\ rest1 = rest2.
Proof.
  intros H1 H2 Heq.
  destruct (roundtrip_fuel v1 H1 rest1) as (f1 & Hp1).
  destruct (roundtrip_fuel v2 H2 rest2) as (f2 & Hp2).
  apply Decode_of_fuel in Hp1, Hp2. unfold Encode in Heq.
  rewrite Heq in Hp1. rewrite Hp1 in Hp2. injection Hp2 as -> ->. auto.
Qed.



(** ** White space around a frame *)

Lemma TrimLeftSpace_spaces (ws s : bytes) :
  forallb strings.asciiSpace ws = true ->
  strings.TrimLeftSpace (ws ++ s) = strings.TrimLeftSpace s.
Proof.
  induction ws as [|b ws IH]; intros Hws; [reflexivity|].
  simpl in Hws. apply andb_prop in Hws as [Hb Hws].
  cbn [app strings.TrimLeftSpace]. rewrite Hb. apply IH, Hws.
Qed.

Lemma ReadString_app_noLF (ws rd : bytes) :
  noLF ws = true ->
  bufio.ReadString LF (ws ++ rd)
  = match bufio.ReadString LF rd with
    | Some (line, rest) => Some (ws ++ line, rest)
    | None => None
    end.
Proof.
  induction ws as [|b ws IH]; intros Hws; simpl.
  - now destruct (bufio.ReadString LF rd) as [[? ?]|].
  - simpl in Hws. apply andb_prop in Hws as [Hb Hws].
    apply negb_true_iff in Hb. rewrite Hb, IH by exact Hws.
    now destruct (bufio.ReadString LF rd) as [[? ?]|].
Qed.

Lemma ParseRESP_skips_blanks (fuel : nat) (ws rd : bytes) :
  forallb strings.asciiSpace ws = true -> noLF ws = true ->
  ParseRESP fuel (ws ++ rd) = ParseRESP fuel rd.
Proof.
  intros Hsp Hlf. destruct fuel as [|fuel]; [reflexivity|].
  cbn [ParseRESP]. rewrite ReadString_app_noLF by exact Hlf.
  destruct (bufio.ReadString LF rd) as [[line rd1]|]; [|reflexivity].
  unfold strings.TrimSpace. now rewrite TrimLeftSpace_spaces.
Qed.

(** Property X6. Blanks, tabs and carriage returns before a frame are
    skipped; a line with nothing else on it is the error "empty line", and
    costs that line only. *)
Theorem Decode_white_space (ws rd : bytes) :
  forallb strings.asciiSpace ws = true -> noLF ws = true ->
  Decode (ws ++ rd) = Decode rd
  /\ Decode (ws ++ LF :: rd) = Some (Fail EmptyLine rd).
Proof.
  intros Hsp Hlf. split.
  - destruct (Decode_returns rd) as (o & Hd & _). rewrite Hd.
    unfold Decode in Hd. eapply Decode_of_fuel.
    rewrite ParseRESP_skips_blanks by assumption. exact Hd.
  - apply (Decode_of_fuel 1). cbn [ParseRESP].
    rewrite ReadString_line by exact Hlf.
    unfold strings.TrimSpace. rewrite TrimLeftSpace_spaces by exact Hsp.
    reflexivity.
Qed.

Section ConnectionFacts.
Context `{GoLib}.

(** Property X14. A line that starts with a byte that is no tag (a command
    typed without the framing, for one) is answered with "unknown RESP type"
    and skipped: the loop goes on with the next line. *)
Theorem handleConnection_skips_unknown_line (tag : ascii) (t rest w : bytes)
  (st : gmap bytes bytes) (fuel : nat) :
  plain tag = true ->
  ~ In tag [RESP_SIMPLE_STRING; RESP_ERROR; RESP_INTEGER; RESP_BULK_STRING;
            RESP_ARRAY] ->
  noLF t = true ->
  handleConnection (S fuel) (mkConn OPEN (tag :: t ++ LF :: rest) w st)
  = handleConnection fuel
      (mkConn OPEN rest (w ++ B "-ERR unknown RESP type: " ++ [tag] ++ CRLF) st).
Proof.
  intros Hp Htag Hlf.
  assert (Hd : Decode (tag :: t ++ LF :: rest)
               = Some (Fail (UnknownType tag) rest)).
  { apply (Decode_of_fuel 1). cbn [ParseRESP].
    change (tag :: t ++ LF :: rest) with ((tag :: t) ++ LF :: rest).
    rewrite ReadString_line.
    2:{ simpl. rewrite Hlf, andb_true_r. apply negb_true_iff.
        rewrite eqb_code. change (code LF) with 10%Z.
        unfold plain, strings.asciiSpace, between in Hp. lia. }
    change ((tag :: t) ++ [LF]) with (tag :: t ++ [LF]).
    rewrite TrimSpace_line by exact Hp.
    repeat match goal with
      | |- context [Ascii.eqb tag ?c] =>
          destruct (Ascii.eqb_spec tag c) as [->|_];
          [exfalso; apply Htag; simpl; tauto|]
      end.
    reflexivity. }
  cbn [handleConnection state]. unfold iteration. cbn [reader written store].
  rewrite Hd.
  destruct (decide (Error (UnknownType tag) = B "EOF")) as [He|_].
  { apply Error_EOF in He. discriminate. }
  f_equal. f_equal. cbn. unfold fmt_c.
  unfold plain in Hp. apply andb_prop in Hp as [-> _]. reflexivity.
Qed.

End ConnectionFacts.


Section DispatcherFacts.
Context `{GoLib}.

(** ** The dispatcher and the store *)

Lemma processCommand_store_cases (store : gmap bytes bytes)
  (command : RESPValue) :
  snd (processCommand store command) = store
  \/ exists name k v more,
       Type_ command = RESP_ARRAY /\ IsNull command = false
       /\ Array command = name :: k :: v :: more
       /\ isBulk name = true /\ ToUpper (Str name) = B "SET"
       /\ isBulk k = true /\ isBulk v = true
       /\ processCommand store command
          = (SimpleString (B "OK"), <[Str k := Str v]> store).
Proof.
  unfold processCommand.
  destruct (Ascii.eqb_spec (Type_ command) RESP_ARRAY) as [Htype|];
    [|left; reflexivity].
  destruct (IsNull command) eqn:Hnull; [left; reflexivity|]. cbn [negb orb].
  destruct (Array command) as [|name args] eqn:Harr; [left; reflexivity|].
  destruct (isBulk name) eqn:Hname; [|left; reflexivity]. cbn [negb].
  destruct (decide (ToUpper (Str name) = B "PING")); [left; reflexivity|].
  destruct (decide (ToUpper (Str name) = B "ECHO")); [left; reflexivity|].
  destruct (decide (ToUpper (Str name) = B "SET")) as [Hset|].
  - unfold handleSet. rewrite Harr.
    destruct args as [|k [|v more]]; [left; reflexivity..|].
    destruct (isBulk k) eqn:Hk; [|left; reflexivity].
    destruct (isBulk v) eqn:Hv; [|left; reflexivity].
    right. exists name, k, v, more. repeat split; auto.
  - destruct (decide (ToUpper (Str name) = B "GET")); [left; reflexivity|].
    destruct (decide (ToUpper (Str name) = B "QUIT")); [left; reflexivity|].
    destruct (decide (ToUpper (Str name) = B "INFO")); left; reflexivity.
Qed.

Lemma processCommand_SET (store : gmap bytes bytes) (command : RESPValue)
  (name k v : RESPValue) (more : list RESPValue) :
  Type_ command = RESP_ARRAY -> IsNull command = false ->
  Array command = name :: k :: v :: more ->
  isBulk name = true -> ToUpper (Str name) = B "SET" ->
  isBulk k = true -> isBulk v = true ->
  processCommand store command
  = (SimpleString (B "OK"), <[Str k := Str v]> store).
Proof.
  intros Htype Hnull Harr Hname Hset Hk Hv.
  unfold processCommand, handleSet.
  rewrite Htype, Hnull, Harr, Hname, Hset, Hk, Hv. reflexivity.
Qed.

Lemma processCommand_keeps_keys (store : gmap bytes bytes)
  (command : RESPValue) (key : bytes) :
  is_Some (store !! key) ->
  is_Some (snd (processCommand store command) !! key).
Proof.
  intros Hkey.
  destruct (processCommand_store_cases store command)
    as [-> | (name & k & v & more & _ & _ & _ & _ & _ & _ & _ & ->)];
    [exact Hkey|].
  simpl. rewrite lookup_insert. destruct (decide (Str k = key)); eauto.
Qed.

(** Property X9. A command changes the store only when it is an Array, not
    null, of a BulkString that is SET in any case of letters and two
    BulkString arguments at least; such a command binds the text of the
    first argument to the text of the second and is answered OK. No command
    removes a key. *)
Theorem processCommand_store_change (store store' : gmap bytes bytes)
  (command response : RESPValue) :
  processCommand store command = (response, store') ->
  (store' = store
   \/ exists name k v more,
        Type_ command = RESP_ARRAY /\ IsNull command = false
        /\ Array command = name :: k :: v :: more
        /\ isBulk name = true /\ ToUpper (Str name) = B "SET"
        /\ isBulk k = true /\ isBulk v = true
        /\ response = SimpleString (B "OK")
        /\ store' = <[Str k := Str v]> store)
  /\ (forall name k v more,
        Type_ command = RESP_ARRAY -> IsNull command = false ->
        Array command = name :: k :: v :: more ->
        isBulk name = true -> ToUpper (Str name) = B "SET" ->
        isBulk k = true -> isBulk v = true ->
        response = SimpleString (B "OK")
        /\ store' = <[Str k := Str v]> store)
  /\ forall key, is_Some (store !! key) -> is_Some (store' !! key).
Proof.
  intros Hp. repeat split.
  - destruct (processCommand_store_cases store command)
      as [Hs | (name & k & v & more & Htype & Hnull & Harr & Hname & Hset
                & Hk & Hv & Hr)].
    + left. rewrite Hp in Hs. exact Hs.
    + right. rewrite Hp in Hr. injection Hr as -> ->.
      exists name, k, v, more. repeat split; auto.
  - rewrite (processCommand_SET store command name k v more) in Hp
      by assumption.
    congruence.
  - rewrite (processCommand_SET store command name k v more) in Hp
      by assumption.
    congruence.
  - intros key Hkey.
    pose proof (processCommand_keeps_keys store command key Hkey) as Hk.
    now rewrite Hp in Hk.
Qed.

(** Property X10. After SET of a key to some bytes, GET of the key returns
    these bytes, whatever they are; GET of another key returns what it
    returned before; a second SET of the key replaces the value. *)
Theorem SET_then_GET (store : gmap bytes bytes) (k v : bytes) :
  processCommand store (request [B "SET"; k; v])
  = (SimpleString (B "OK"), <[k := v]> store)
  /\ processCommand (<[k := v]> store) (request [B "GET"; k])
     = (BulkString v, <[k := v]> store)
  /\ (forall k', k' <> k ->
        processCommand (<[k := v]> store) (request [B "GET"; k'])
        = (fst (processCommand store (request [B "GET"; k'])),
           <[k := v]> store))
  /\ (forall v',
        processCommand (<[k := v]> store) (request [B "SET"; k; v'])
        = (SimpleString (B "OK"), <[k := v']> store)).
Proof.
  repeat split.
  - unfold processCommand, handleGet. cbn. rewrite lookup_insert_eq.
    reflexivity.
  - intros k' Hne. unfold processCommand, handleGet. cbn.
    rewrite lookup_insert_ne by congruence. reflexivity.
  - intros v'. unfold processCommand, handleSet. cbn.
    rewrite insert_insert_eq. reflexivity.
Qed.

(** ** Command names *)

Lemma upperASCII_isASCII (c : ascii) :
  strings.isASCII c = true -> strings.isASCII (strings.upperASCII c) = true.
Proof.
  unfold strings.isASCII, strings.upperASCII, between. intros Hc.
  destruct ((97 <=? code c)%Z && (code c <=? 122)%Z) eqn:E; [|exact Hc].
  rewrite code_chr by lia. lia.
Qed.

Lemma upperASCII_idem (c : ascii) :
  strings.upperASCII (strings.upperASCII c) = strings.upperASCII c.
Proof.
  unfold strings.upperASCII. destruct (between 97 122 c) eqn:E.
  - assert (Hup : between 97 122 (chr (code c - 32)) = false).
    { unfold between in *. rewrite code_chr by lia. lia. }
    now rewrite Hup.
  - now rewrite E.
Qed.

Lemma ToUpper_ASCII (s : bytes) :
  forallb strings.isASCII s = true -> ToUpper s = map strings.upperASCII s.
Proof.
  intros Hs. unfold ToUpper. now rewrite Hs.
Qed.

Lemma ToUpper_upper (s : bytes) :
  forallb strings.isASCII s = true ->
  ToUpper (map strings.upperASCII s) = ToUpper s.
Proof.
  intros Hs. rewrite (ToUpper_ASCII s Hs). rewrite ToUpper_ASCII.
  - rewrite map_map. apply map_ext. intros c. apply upperASCII_idem.
  - rewrite forallb_forall in *. intros c Hin.
    apply in_map_iff in Hin as (c0 & <- & Hin0).
    apply upperASCII_isASCII, Hs, Hin0.
Qed.

(** Property X11. A command name made of ASCII bytes is dispatched as the
    same name in upper case. *)
Theorem processCommand_case_insensitive (store : gmap bytes bytes)
  (name : bytes) (args : list RESPValue) :
  forallb strings.isASCII name = true ->
  processCommand store (ArrayOf (BulkString name :: args))
  = processCommand store
      (ArrayOf (BulkString (map strings.upperASCII name) :: args)).
Proof.
  intros Hname. unfold processCommand. cbn.
  rewrite (ToUpper_upper name Hname). reflexivity.
Qed.

(** Property X12. The dispatcher reads the type and the text of the elements
    of a command and nothing else: a null BulkString argument counts as the
    empty string. *)
Theorem processCommand_reads_type_and_text (store : gmap bytes bytes)
  (name : RESPValue) (args : list RESPValue) :
  processCommand store (ArrayOf (name :: args))
  = processCommand store (ArrayOf (bare name :: map bare args)).
Proof.
  unfold processCommand, handleEcho, handleSet, handleGet. cbn.
  destruct args as [|a1 [|a2 more]]; reflexivity.
Qed.

(** ** A line feed in the name of an unknown command *)

Lemma upperASCII_LF (c : ascii) :
  Ascii.eqb (strings.upperASCII c) LF = Ascii.eqb c LF.
Proof.
  rewrite !eqb_code. unfold strings.upperASCII, between.
  change (code LF) with 10%Z.
  destruct ((97 <=? code c)%Z && (code c <=? 122)%Z) eqn:E; [|reflexivity].
  rewrite code_chr by lia. lia.
Qed.

Lemma noLF_upper (s : bytes) : noLF (map strings.upperASCII s) = noLF s.
Proof.
  unfold noLF. induction s as [|c s IH]; [reflexivity|].
  simpl. now rewrite upperASCII_LF, IH.
Qed.

(** Property X13. The reply to an unknown command repeats the name in upper
    case as it is. When the name has a line feed in it, the client decodes
    the reply as an Error that ends before the line feed, and finds the rest
    of the name in its stream after it. *)
Theorem unknown_command_reply_splits (store : gmap bytes bytes)
  (n1 n2 : bytes) :
  forallb strings.isASCII (n1 ++ LF :: n2) = true -> noLF n1 = true ->
  processCommand store (request [n1 ++ LF :: n2])
  = (errorResp (B "ERR unknown command '"
                  ++ map strings.upperASCII (n1 ++ LF :: n2) ++ B "'"),
     store)
  /\ Decode (Encode (errorResp
                       (B "ERR unknown command '"
                          ++ map strings.upperASCII (n1 ++ LF :: n2) ++ B "'")))
     = Some (Ok (errorResp
                   (strings.TrimRightSpace
                      (B "ERR unknown command '" ++ map strings.upperASCII n1)))
               (map strings.upperASCII n2 ++ B "'" ++ CRLF)).
Proof.
  intros Hascii Hlf. split.
  - unfold processCommand. cbn. rewrite (ToUpper_ASCII _ Hascii).
    assert (Hin : In LF (map strings.upperASCII (n1 ++ LF :: n2))).
    { rewrite map_app. apply in_or_app. right. left. reflexivity. }
    repeat match goal with
      | |- context [decide (?a = ?b)] =>
          destruct (decide (a = b)) as [Heq|_];
          [exfalso; rewrite Heq in Hin; vm_compute in Hin;
           repeat (destruct Hin as [Hin|Hin]; [discriminate Hin|]);
           exact Hin|]
      end.
    reflexivity.
  - change (Encode (errorResp ?m)) with (RESP_ERROR :: m ++ CRLF).
    rewrite map_app. cbn [map]. change (strings.upperASCII LF) with LF.
    replace (RESP_ERROR
               :: (B "ERR unknown command '"
                     ++ (map strings.upperASCII n1
                           ++ LF :: map strings.upperASCII n2) ++ B "'")
               ++ CRLF)
      with (RESP_ERROR
              :: (B "ERR unknown command '" ++ map strings.upperASCII n1)
              ++ LF :: (map strings.upperASCII n2 ++ B "'" ++ CRLF))
      by (repeat (progress (simpl; rewrite <- ?app_assoc)); reflexivity).
    rewrite Decode_tagged_line; [reflexivity|right; reflexivity|].
    rewrite noLF_app, noLF_upper, Hlf. reflexivity.
Qed.

End DispatcherFacts.

(** ** The connection loop *)

(** An error after the first line has been read leaves less to read. *)
Lemma ParseRESP_Fail_shorter (fuel : nat) (rd rd' : bytes) (e : error) :
  ParseRESP fuel rd = Some (Fail e rd') ->
  bufio.ReadString LF rd <> None -> length rd' < length rd.
Proof.
  intros Hp Hline.
  destruct (bufio.ReadString LF rd) as [[line rd1]|] eqn:Hr; [|contradiction].
  pose proof (ReadString_shorter _ _ _ Hr) as Hlt.
  destruct fuel as [|fuel]; [discriminate|]. simpl in Hp. rewrite Hr in Hp.
  repeat (break_match_in Hp; try congruence);
    injection Hp as <- <-; try (simpl; lia).
  match goal with
  | Ha : ParseArray _ _ _ _ _ = Some (Fail _ ?r) |- _ =>
      apply (proj2 (ParseRESP_unread _)) with (rest := r) in Ha;
      [apply suffix_length in Ha; lia|reflexivity]
  end.
Qed.

Section LoopFacts.
Context `{GoLib}.

Lemma iteration_cases (c : conn) :
  (state (iteration c) = OPEN
   /\ length (reader (iteration c)) < length (reader c))
  \/ (state (iteration c) = CLOSED /\ reader (iteration c) = []
      /\ written (iteration c) = written c /\ store (iteration c) = store c)
  \/ state (iteration c) = CRASHED.
Proof.
  unfold iteration. destruct (Decode_returns (reader c)) as (o & Hd & Hs).
  rewrite Hd. destruct o as [command rd|e rd|].
  - left. destruct (processCommand (store c) command). simpl in *. auto.
  - destruct (decide (Error e = B "EOF")) as [He|He].
    + right. left. apply Error_EOF in He. subst e.
      pose proof (proj1 (ParseRESP_EOF _ _ _ _ Hd) eq_refl) as Hnone.
      rewrite (Decode_EOF _ Hnone) in Hd. injection Hd as <-. auto.
    + left. split; [reflexivity|]. simpl.
      eapply ParseRESP_Fail_shorter; [exact Hd|].
      intros Hnone. apply He, Error_EOF.
      apply (ParseRESP_EOF _ _ _ _ Hd), Hnone.
  - right. right. reflexivity.
Qed.

(** Property X16. On a stream of [n] bytes the loop ends within [n + 1]
    turns: the connection is closed with the whole stream read, or the
    decoder has panicked. *)
Theorem handleConnection_ends (c : conn) (fuel : nat) :
  state c = OPEN -> length (reader c) < fuel ->
  (state (handleConnection fuel c) = CLOSED
   /\ reader (handleConnection fuel c) = [])
  \/ state (handleConnection fuel c) = CRASHED.
Proof.
  revert c. induction fuel as [|fuel IH]; intros c Hopen Hlen; [lia|].
  cbn [handleConnection]. rewrite Hopen.
  destruct (iteration_cases c) as [[Ho Hlt] | [(Hc & Hr & _) | Hc]].
  - apply IH; [exact Ho|lia].
  - destruct fuel; simpl; rewrite Hc; auto.
  - destruct fuel; simpl; rewrite Hc; auto.
Qed.

Lemma iteration_monotone (c : conn) :
  written c `prefix_of` written (iteration c)
  /\ forall key, is_Some (store c !! key) ->
       is_Some (store (iteration c) !! key).
Proof.
  unfold iteration. destruct (Decode (reader c)) as [[command rd|e rd|]|].
  - pose proof (processCommand_keeps_keys (store c) command) as Hk.
    destruct (processCommand (store c) command) as [response store'].
    simpl in *. split; [apply prefix_app_r; reflexivity|exact Hk].
  - destruct (decide (Error e = B "EOF")); simpl;
      (split; [|auto]); [reflexivity|apply prefix_app_r; reflexivity].
  - simpl. split; [reflexivity|auto].
  - split; [reflexivity|auto].
Qed.

(** Property X17. The loop only adds to what it has written, and never
    removes a key from the store. *)
Theorem handleConnection_monotone (c : conn) (fuel : nat) :
  written c `prefix_of` written (handleConnection fuel c)
  /\ forall key, is_Some (store c !! key) ->
       is_Some (store (handleConnection fuel c) !! key).
Proof.
  revert c. induction fuel as [|fuel IH]; intros c.
  - simpl. destruct (state c); split; auto; reflexivity.
  - cbn [handleConnection].
    destruct (state c); try (split; auto; reflexivity).
    destruct (IH (iteration c)) as [Hw Hs].
    destruct (iteration_monotone c) as [Hw1 Hs1].
    split; [etrans; eassumption|auto].
Qed.

Lemma iteration_request (command : RESPValue) (rest w : bytes)
  (st : gmap bytes bytes) :
  wellFormed command = true ->
  iteration (mkConn OPEN (Encode command ++ rest) w st)
  = mkConn OPEN rest
      (w ++ Encode (fst (processCommand st command)))
      (snd (processCommand st command)).
Proof.
  intros Hwf. unfold iteration. cbn [reader written store].
  destruct (roundtrip_fuel command Hwf rest) as (fuel & Hp).
  change (Encode command) with (SerializeRESP command).
  rewrite (Decode_of_fuel _ _ _ Hp).
  destruct (processCommand st command). reflexivity.
Qed.

Lemma handleConnection_serve (requests : list RESPValue) (w : bytes)
  (st : gmap bytes bytes) (fuel : nat) :
  forallb wellFormed requests = true -> length requests < fuel ->
  handleConnection fuel (mkConn OPEN (concat (map Encode requests)) w st)
  = mkConn CLOSED []
      (w ++ concat (map Encode (fst (serve st requests))))
      (snd (serve st requests)).
Proof.
  revert w st fuel.
  induction requests as [|command requests IH]; intros w st fuel Hwf Hlen.
  - destruct fuel as [|fuel]; [simpl in Hlen; lia|].
    simpl. rewrite app_nil_r. destruct fuel; reflexivity.
  - destruct fuel as [|fuel]; [simpl in Hlen; lia|].
    cbn [forallb] in Hwf. apply andb_prop in Hwf as [Hc Hwf].
    cbn [handleConnection state map concat].
    rewrite (iteration_request _ _ _ _ Hc).
    simpl in Hlen. rewrite (IH _ _ fuel Hwf ltac:(lia)).
    cbn [serve]. destruct (processCommand st command) as [response st'].
    cbn [fst snd]. destruct (serve st' requests) as [responses st''].
    cbn [fst snd map concat]. rewrite <- app_assoc. reflexivity.
Qed.

(** Property X18. Well-formed requests sent one after the other on one
    connection are answered one by one in that order, each against the
    store the ones before it left, and the connection closes at the end of
    the stream. *)
Theorem handleConnection_pipeline (requests : list RESPValue)
  (st : gmap bytes bytes) :
  forallb wellFormed requests = true ->
  handleConnection (S (length requests))
    (accept (concat (map Encode requests)) st)
  = mkConn CLOSED []
      (concat (map Encode (fst (serve st requests))))
      (snd (serve st requests)).
Proof.
  intros Hwf. unfold accept.
  rewrite handleConnection_serve by (auto; lia). reflexivity.
Qed.

End LoopFacts.

(** ** A client that goes away in the middle of a BulkString *)


Section TruncatedFacts.
Context `{GoLib}.


End TruncatedFacts.

(** ** Workers that read the store *)

Module ReadersFacts.
Import Concurrent Readers.

Ltac upto3 n :=
  destruct n as [|[|[|[|n]]]]; [| | | |lia].

Ltac upto4 n :=
  destruct n as [|[|[|[|[|n]]]]]; [| | | | |lia].

Lemma stepSeen_shorter (r r' : run) :
  stepSeen r r' ->
  length (worker1 (sys r')) + length (worker2 (sys r'))
  < length (worker1 (sys r)) + length (worker2 (sys r)).
Proof.
  intros [m m' i rest w2 s1 s2 _ _ | m m' i rest w1 s1 s2 _ _]; simpl; lia.
Qed.

(** Workers that can always take a step until both are done get done. *)
Lemma stepSeen_completes (Inv : run -> Prop) :
  (forall r r', Inv r -> stepSeen r r' -> Inv r') ->
  (forall r, Inv r -> finished (sys r) = true \/ exists r', stepSeen r r') ->
  forall r, Inv r ->
    exists r', rtc stepSeen r r' /\ finished (sys r') = true.
Proof.
  intros Hstep Hprog r.
  remember (length (worker1 (sys r)) + length (worker2 (sys r))) as n eqn:Hn.
  revert r Hn. induction n as [n IH] using lt_wf_ind. intros r Hn Hinv.
  destruct (Hprog r Hinv) as [Hfin | [r1 Hr1]].
  - exists r. split; [apply rtc_refl|exact Hfin].
  - pose proof (stepSeen_shorter _ _ Hr1) as Hlt.
    destruct (IH _ ltac:(subst n; exact Hlt) r1 eq_refl (Hstep _ _ Hinv Hr1))
      as (r' & Hrun & Hfin).
    exists r'. split; [|exact Hfin]. eapply rtc_l; eassumption.
Qed.

Lemma skipn_next {A : Type} (n : nat) (l : list A) (x : A) (rest : list A) :
  x :: rest = skipn n l -> rest = skipn (S n) l.
Proof.
  revert l. induction n as [|n IH]; intros l Hl.
  - change (skipn 0 l) with l in Hl. rewrite <- Hl. reflexivity.
  - destruct l as [|y l]; [discriminate|]. apply IH, Hl.
Qed.

Lemma invariantSetGet_step (st : gmap bytes bytes) (k v k' : bytes)
  (r r' : run) :
  invariantSetGet st k v k' r -> stepSeen r r' -> invariantSetGet st k v k' r'.
Proof.
  intros (n1 & n2 & H1 & H2 & Hn1 & Hn2 & Hf & Hw & Hr & Hx & Hwr & Hst
          & Hs1 & Hs2) Hstep.
  destruct Hstep as [m m' i rest w2 s1 s2 _ Hexec
                    | m m' i rest w1 s1 s2 _ Hexec];
    destruct m as [st0 wr [w rd] f];
    cbn [sys seen1 seen2 mem worker1 worker2 store writing mutex fatal writer
           readers] in *.
  - exists (S n1), n2. pose proof (skipn_next _ _ _ _ H1) as Hrest.
    upto4 n1; simpl in H1;
      try discriminate H1; injection H1 as Hi _; subst i;
      upto3 n2; simpl in *; subst;
      try discriminate; injection Hexec as <-; simpl;
      rewrite ?app_nil_r; repeat split; try lia; try reflexivity; try assumption.
  - exists n1, (S n2). pose proof (skipn_next _ _ _ _ H2) as Hrest.
    upto3 n2; simpl in H2;
      try discriminate H2; injection H2 as Hi _; subst i;
      upto4 n1; simpl in *; subst;
      try discriminate; injection Hexec as <-; simpl;
      rewrite ?app_nil_r; repeat split; try lia; try reflexivity; try assumption; auto.
Qed.

Lemma invariantSetGet_progress (st : gmap bytes bytes) (k v k' : bytes)
  (r : run) :
  invariantSetGet st k v k' r ->
  finished (sys r) = true \/ exists r', stepSeen r r'.
Proof.
  intros (n1 & n2 & H1 & H2 & Hn1 & Hn2 & Hf & Hw & Hr & Hx & Hwr & Hst
          & Hs1 & Hs2).
  destruct r as [[[st0 wr [w rd] f] w1 w2] s1 s2];
    cbn [sys seen1 seen2 mem worker1 worker2 store writing mutex fatal writer
           readers] in *.
  subst.
  upto4 n1;
    upto3 n2; simpl in *;
    try discriminate; auto; right;
    first [ eexists; apply seen_worker1; [reflexivity|reflexivity]
          | eexists; apply seen_worker2; [reflexivity|reflexivity] ].
Qed.

Lemma invariantSetGet_reachable (st : gmap bytes bytes) (k v k' : bytes)
  (r : run) :
  rtc stepSeen (setAndGet st k v k') r -> invariantSetGet st k v k' r.
Proof.
  revert r. apply rtc_ind_r.
  - exists 0, 0. simpl. repeat split; lia.
  - intros r1 r2 _ Hstep IH. eapply invariantSetGet_step; eassumption.
Qed.

(** Property X19. A worker in handleSet and a worker in handleGet run
    together: the runtime never stops the process, the reader sees the key
    as it was before the SET or as it is after it, the store ends with the
    new binding, and both workers can always get done. *)
Theorem concurrent_SET_GET (st : gmap bytes bytes) (k v k' : bytes) (r : run) :
  rtc stepSeen (setAndGet st k v k') r ->
  fatal (mem (sys r)) = false
  /\ (finished (sys r) = true ->
      store (mem (sys r)) = <[k := v]> st
      /\ (seen2 r = [st !! k'] \/ seen2 r = [<[k := v]> st !! k']))
  /\ exists r', rtc stepSeen r r' /\ finished (sys r') = true.
Proof.
  intros Hrun. pose proof (invariantSetGet_reachable _ _ _ _ _ Hrun) as Hinv.
  pose proof (stepSeen_completes _ (invariantSetGet_step st k v k')
                (invariantSetGet_progress st k v k') r Hinv) as Hdone.
  destruct Hinv as (n1 & n2 & H1 & H2 & Hn1 & Hn2 & Hf & Hw & Hr & Hx & Hwr
                    & Hst & Hs1 & Hs2).
  split; [exact Hf|]. split; [|exact Hdone].
  intros Hfin. unfold finished in Hfin. rewrite H1, H2 in Hfin.
  upto4 n1; upto3 n2; simpl in Hfin; try discriminate.
  simpl in Hst, Hs2. auto.
Qed.

Lemma invariantGets_step (st : gmap bytes bytes) (k1 k2 : bytes) (r r' : run) :
  invariantGets st k1 k2 r -> stepSeen r r' -> invariantGets st k1 k2 r'.
Proof.
  intros (n1 & n2 & H1 & H2 & Hn1 & Hn2 & Hf & Hw & Hr & Hwr & Hst
          & Hs1 & Hs2) Hstep.
  destruct Hstep as [m m' i rest w2 s1 s2 _ Hexec
                    | m m' i rest w1 s1 s2 _ Hexec];
    destruct m as [st0 wr [w rd] f];
    cbn [sys seen1 seen2 mem worker1 worker2 store writing mutex fatal writer
           readers] in *.
  - exists (S n1), n2. pose proof (skipn_next _ _ _ _ H1) as Hrest.
    upto3 n1; simpl in H1;
      try discriminate H1; injection H1 as Hi _; subst i;
      upto3 n2; simpl in *; subst;
      try discriminate; injection Hexec as <-; simpl;
      rewrite ?app_nil_r; repeat split; try lia; try reflexivity; try assumption.
  - exists n1, (S n2). pose proof (skipn_next _ _ _ _ H2) as Hrest.
    upto3 n2; simpl in H2;
      try discriminate H2; injection H2 as Hi _; subst i;
      upto3 n1; simpl in *; subst;
      try discriminate; injection Hexec as <-; simpl;
      rewrite ?app_nil_r; repeat split; try lia; try reflexivity; try assumption.
Qed.

Lemma invariantGets_progress (st : gmap bytes bytes) (k1 k2 : bytes) (r : run) :
  invariantGets st k1 k2 r ->
  finished (sys r) = true \/ exists r', stepSeen r r'.
Proof.
  intros (n1 & n2 & H1 & H2 & Hn1 & Hn2 & Hf & Hw & Hr & Hwr & Hst
          & Hs1 & Hs2).
  destruct r as [[[st0 wr [w rd] f] w1 w2] s1 s2];
    cbn [sys seen1 seen2 mem worker1 worker2 store writing mutex fatal writer
           readers] in *.
  subst.
  upto3 n1;
    upto3 n2; simpl in *;
    try discriminate; auto; right;
    first [ eexists; apply seen_worker1; [reflexivity|reflexivity]
          | eexists; apply seen_worker2; [reflexivity|reflexivity] ].
Qed.

Lemma invariantGets_reachable (st : gmap bytes bytes) (k1 k2 : bytes)
  (r : run) :
  rtc stepSeen (twoGets st k1 k2) r -> invariantGets st k1 k2 r.
Proof.
  revert r. apply rtc_ind_r.
  - exists 0, 0. simpl. repeat split; lia.
  - intros r1 r2 _ Hstep IH. eapply invariantGets_step; eassumption.
Qed.

(** Property X20. Two workers in handleGet run together: the runtime never
    stops the process, the store is not changed, each reader sees its key as
    the store has it, both can always get done, and both can hold the read
    lock at the same time. *)
Theorem concurrent_GET_GET (st : gmap bytes bytes) (k1 k2 : bytes) :
  (forall r, rtc stepSeen (twoGets st k1 k2) r ->
     fatal (mem (sys r)) = false
     /\ store (mem (sys r)) = st
     /\ (finished (sys r) = true ->
         seen1 r = [st !! k1] /\ seen2 r = [st !! k2])
     /\ exists r', rtc stepSeen r r' /\ finished (sys r') = true)
  /\ exists r, rtc stepSeen (twoGets st k1 k2) r
       /\ readers (mutex (mem (sys r))) = 2
       /\ worker1 (sys r) = [Access k1; RUnlock]
       /\ worker2 (sys r) = [Access k2; RUnlock].
Proof.
  split.
  - intros r Hrun.
    pose proof (invariantGets_reachable _ _ _ _ Hrun) as Hinv.
    pose proof (stepSeen_completes _ (invariantGets_step st k1 k2)
                  (invariantGets_progress st k1 k2) r Hinv) as Hdone.
    destruct Hinv as (n1 & n2 & H1 & H2 & Hn1 & Hn2 & Hf & Hw & Hr & Hwr
                      & Hst & Hs1 & Hs2).
    split; [exact Hf|]. split; [exact Hst|]. split; [|exact Hdone].
    intros Hfin. unfold finished in Hfin. rewrite H1, H2 in Hfin.
    upto3 n1; upto3 n2; simpl in Hfin; try discriminate.
    simpl in Hs1, Hs2. auto.
  - eexists. split.
    + unfold twoGets, handleGet_code.
      eapply rtc_l; [apply seen_worker1; reflexivity|].
      eapply rtc_l; [apply seen_worker2; reflexivity|].
      apply rtc_refl.
    + simpl. auto.
Qed.

End ReadersFacts.

(** ** The further properties at concrete inputs *)

(** [Decode_returns_decoded] at a concrete input. *)
Lemma Decode_returns_decoded_witness :
  decoded (ArrayOf [Integer 7; NullArray]) = true.
Proof.
  apply (Decode_returns_decoded
           (B "*2" ++ CRLF ++ B ":+07" ++ CRLF ++ B "*-1" ++ CRLF)
           (ArrayOf [Integer 7; NullArray]) []).
  reflexivity.
Defined.

(** [Decode_value_roundtrips] at a concrete input. *)
Lemma Decode_value_roundtrips_witness :
  Decode (Encode (ArrayOf [Integer 7]) ++ B "+x")
  = Some (Ok (ArrayOf [Integer 7]) (B "+x")).
Proof.
  apply (Decode_value_roundtrips
           (B "  *1 " ++ CRLF ++ B ":+07" ++ CRLF) (ArrayOf [Integer 7]) []);
    reflexivity.
Defined.

(** [Encode_uniquely_decodable] at a concrete input. *)
Lemma Encode_uniquely_decodable_witness :
  BulkString (B "a") = BulkString (B "a") /\ B "+x" = B "+x".
Proof.
  apply (Encode_uniquely_decodable (BulkString (B "a")) (BulkString (B "a"))
           (B "+x") (B "+x")); reflexivity.
Defined.


(** [Decode_white_space] at a concrete input. *)
Lemma Decode_white_space_witness :
  Decode (B "  " ++ B "+OK" ++ CRLF) = Decode (B "+OK" ++ CRLF)
  /\ Decode (B "  " ++ LF :: B "+OK" ++ CRLF)
     = Some (Fail EmptyLine (B "+OK" ++ CRLF)).
Proof.
  apply (Decode_white_space (B "  ") (B "+OK" ++ CRLF)); reflexivity.
Defined.

(** [handleConnection_skips_unknown_line] at a concrete input. *)
Lemma handleConnection_skips_unknown_line_witness :
  @handleConnection demoLib 1 (mkConn OPEN (B "PING" ++ CRLF) [] ∅)
  = mkConn OPEN [] (B "-ERR unknown RESP type: P" ++ CRLF) ∅.
Proof.
  apply (@handleConnection_skips_unknown_line demoLib "P"%char (B "ING" ++ [CR])
           [] [] ∅ 0); [reflexivity| |reflexivity].
  simpl. intros [Hf|[Hf|[Hf|[Hf|[Hf|[]]]]]]; discriminate Hf.
Defined.

(** [processCommand_store_change] at a concrete input. *)
Lemma processCommand_store_change_witness :
  is_Some ((<[B "a" := B "1"]> ({[ B "b" := B "2" ]} : gmap bytes bytes))
             !! B "b").
Proof.
  destruct (@processCommand_store_change demoLib {[ B "b" := B "2" ]}
              (<[B "a" := B "1"]> {[ B "b" := B "2" ]})
              (request [B "SET"; B "a"; B "1"]) (SimpleString (B "OK")))
    as (_ & _ & Hkeys); [reflexivity|].
  apply Hkeys. exists (B "2"). reflexivity.
Defined.

(** [processCommand_case_insensitive] at a concrete input. *)
Lemma processCommand_case_insensitive_witness :
  @processCommand demoLib ∅ (ArrayOf [BulkString (B "get"); BulkString (B "a")])
  = @processCommand demoLib ∅
      (ArrayOf [BulkString (B "GET"); BulkString (B "a")]).
Proof.
  apply (@processCommand_case_insensitive demoLib ∅ (B "get")
           [BulkString (B "a")]). reflexivity.
Defined.

(** [unknown_command_reply_splits] at a concrete input. *)
Lemma unknown_command_reply_splits_witness :
  Decode (Encode (errorResp (B "ERR unknown command 'FOO" ++ LF :: B "+OK'")))
  = Some (Ok (errorResp (B "ERR unknown command 'FOO")) (B "+OK'" ++ CRLF)).
Proof.
  destruct (@unknown_command_reply_splits demoLib ∅ (B "foo") (B "+ok"))
    as [_ Hd]; [reflexivity|reflexivity|exact Hd].
Defined.

(** [handleConnection_ends] at a concrete input. *)
Lemma handleConnection_ends_witness :
  (state (@handleConnection demoLib 6 (accept (B "+OK" ++ CRLF) ∅)) = CLOSED
   /\ reader (@handleConnection demoLib 6 (accept (B "+OK" ++ CRLF) ∅)) = [])
  \/ state (@handleConnection demoLib 6 (accept (B "+OK" ++ CRLF) ∅)) = CRASHED.
Proof.
  apply (@handleConnection_ends demoLib (accept (B "+OK" ++ CRLF) ∅) 6);
    [reflexivity|simpl; lia].
Defined.

(** [handleConnection_pipeline] at a concrete input. *)
Lemma handleConnection_pipeline_witness :
  @handleConnection demoLib 4
    (accept (concat (map Encode [request [B "PING"];
                                 request [B "SET"; B "a"; B "1"];
                                 request [B "GET"; B "a"]])) ∅)
  = mkConn CLOSED []
      (B "+PONG" ++ CRLF ++ B "+OK" ++ CRLF ++ B "$1" ++ CRLF ++ B "1" ++ CRLF)
      {[ B "a" := B "1" ]}.
Proof.
  exact (@handleConnection_pipeline demoLib
           [request [B "PING"]; request [B "SET"; B "a"; B "1"];
            request [B "GET"; B "a"]] ∅ eq_refl).
Defined.


(** [Decode_panics_on_refused_header] at a concrete input: the largest
    length that [Atoi] returns, in a header with no minus sign. *)
Lemma Decode_panics_on_refused_header_witness :
  Decode (B "$9223372036854775807" ++ CRLF ++ B "abc" ++ CRLF) = Some Panic.
Proof.
  apply (proj1 (Decode_panics_on_refused_header
                  (B "$9223372036854775807" ++ CRLF ++ B "abc" ++ CRLF))
           (B "$9223372036854775807" ++ CRLF) (B "abc" ++ CRLF));
    reflexivity.
Defined.


Module ReadersWitness.
Import Concurrent Readers ReadersFacts.

(** [concurrent_SET_GET] at a concrete input. *)
Lemma concurrent_SET_GET_witness :
  seen2 (mkRun (mkSystem (mkShared {[ B "k" := B "1" ]} false
                            (mkRWMutex false 0) false) [] [])
           [] [Some (B "1")])
  = [(∅ : gmap bytes bytes) !! B "k"]
  \/ seen2 (mkRun (mkSystem (mkShared {[ B "k" := B "1" ]} false
                               (mkRWMutex false 0) false) [] [])
              [] [Some (B "1")])
     = [(<[B "k" := B "1"]> (∅ : gmap bytes bytes)) !! B "k"].
Proof.
  destruct (concurrent_SET_GET ∅ (B "k") (B "1") (B "k")
              (mkRun (mkSystem (mkShared {[ B "k" := B "1" ]} false
                                  (mkRWMutex false 0) false) [] [])
                 [] [Some (B "1")]))
    as (_ & Hfin & _).
  - unfold setAndGet, handleSet_code, handleGet_code.
    do 4 (eapply rtc_l; [apply seen_worker1; reflexivity|]).
    do 3 (eapply rtc_l; [apply seen_worker2; reflexivity|]).
    apply rtc_refl.
  - exact (proj2 (Hfin eq_refl)).
Defined.

End ReadersWitness.
